(** * code-evolution: the incremental commit-history metrics engine

    A shallow embedding of [lib/counter.mjs], [lib/git.mjs],
    [lib/analyze.mjs], [lib/audio.mjs], [lib/data.mjs] and of [main] in
    [analyze.mjs], followed by the properties the specification states
    about them.

    Conventions of the embedding.
    - A JavaScript number holding a count is a [Z]; a number produced by a
      division is a [Q], computed exactly (IEEE-754 rounding of doubles is
      not modelled).
    - A JavaScript object used as a dictionary is a list of key/value pairs
      in insertion order, because the order of its keys is observable
      ([Object.keys] feeds the [Set] whose iteration order is the input of
      [Array.prototype.sort]).
    - Code that can throw returns an [Exn]; subprocesses, the clock and the
      template renderer are read from a [World]. *)

From Stdlib Require Import Ascii QArith Qround Qminmax Lqa.
From stdpp Require Import base option list strings sorting.

Local Open Scope Z_scope.

(** ** Exceptions *)

Inductive Error :=
  | ExecError      (* a subprocess exited with a failure status *)
  | TypeError      (* a property of [undefined] was read *)
  | RenderError.   (* the HTML template could not be rendered *)

Inductive Exn (A : Type) :=
  | Return (a : A)
  | Throw (e : Error).
Arguments Return {A} a.
Arguments Throw {A} e.

Global Instance exn_bind : MBind Exn := λ A B k m,
  match m with
  | Return a => k a
  | Throw e => Throw e
  end.

Global Instance exn_ret : MRet Exn := λ A a, Return a.

(** ** JavaScript runtime primitives *)

Module JS.

(** [x || 0] on a property that may be absent. *)
Definition or0 (x : option Z) : Z :=
  match x with
  | Some n => n
  | None => 0
  end.

Definition or0Q (x : option Q) : Q :=
  match x with
  | Some q => q
  | None => 0%Q
  end.

(** [s || d] on strings: the empty string is falsy. *)
Definition or_str (s : option string) (d : string) : string :=
  match s with
  | Some "" | None => d
  | Some s' => s'
  end.

(** [Math.round]: the nearest integer, halves towards plus infinity. *)
Definition Math_round (x : Q) : Z := Qfloor (x + (1 # 2)).

(** A number that may be [Infinity] (the initial value of a running
    minimum). *)
Inductive ext := Fin (n : Z) | Infinity.

Definition Math_min (a : ext) (b : Z) : ext :=
  match a with
  | Fin x => Fin (Z.min x b)
  | Infinity => Fin b
  end.

(** Objects as dictionaries, in insertion order. *)
Definition obj (V : Type) := list (string * V).

Fixpoint obj_get {V} (o : obj V) (k : string) : option V :=
  match o with
  | [] => None
  | (k', v) :: o' => if decide (k' = k) then Some v else obj_get o' k
  end.

(** [o[k] = v]: an existing key keeps its position. *)
Fixpoint obj_set {V} (o : obj V) (k : string) (v : V) : obj V :=
  match o with
  | [] => [(k, v)]
  | (k', v') :: o' =>
      if decide (k' = k) then (k, v) :: o' else (k', v') :: obj_set o' k v
  end.

Definition Object_keys {V} (o : obj V) : list string := o.*1.

(** [Set.prototype.add] on a set kept in insertion order. *)
Definition Set_add (s : list string) (x : string) : list string :=
  if decide (x ∈ s) then s else s ++ [x].

(** [String.prototype.trim] over the ASCII white space characters. *)
Fixpoint trimStart (s : string) : string :=
  match s with
  | String c s' => if Ascii.is_space c then trimStart s' else s
  | EmptyString => EmptyString
  end.

Definition trim (s : string) : string :=
  String.rev (trimStart (String.rev (trimStart s))).

(** [s.includes(p)]. *)
Fixpoint includes (p s : string) : bool :=
  String.prefix p s ||
  match s with
  | String _ s' => includes p s'
  | EmptyString => false
  end.

(** [s.split(sep)] for a one-character separator. *)
Fixpoint split_go (sep : Ascii.ascii) (cur : string) (s : string) : list string :=
  match s with
  | EmptyString => [String.rev cur]
  | String c s' =>
      if decide (c = sep) then String.rev cur :: split_go sep EmptyString s'
      else split_go sep (String c cur) s'
  end.

Definition split (sep : Ascii.ascii) (s : string) : list string :=
  split_go sep EmptyString s.

(** [parts.join(sep)]. *)
Fixpoint join (sep : string) (parts : list string) : string :=
  match parts with
  | [] => ""
  | [p] => p
  | p :: ps => p +:+ sep +:+ join sep ps
  end.

(** [Array.prototype.sort(compareFn)]: a stable sort that puts [a]
    before [b] when [compareFn a b <= 0]. *)
Definition before {A} (compareFn : A → A → Q) : relation A :=
  λ a b, Qle_bool (compareFn a b) 0 = true.

Global Instance before_dec {A} (compareFn : A → A → Q) :
  RelDecision (before compareFn) :=
  λ a b, bool_eq_dec (Qle_bool (compareFn a b) 0) true.

Definition sort {A} (compareFn : A → A → Q) (l : list A) : list A :=
  merge_sort (before compareFn) l.

End JS.

(** ** lib/constants.mjs *)

Definition SCHEMA_VERSION : string := "2.2".
Definition DEFAULT_COUNTER_TOOL : string := "scc".
Definition AUDIO_MAX_VOICES : nat := 16.
Definition AUDIO_DETUNE_MAX : Q := 25.

(** ** lib/exec.mjs *)

(** What a subprocess did: its captured standard output, or a failure
    status. *)
Inductive ExecResult :=
  | Stdout (out : string)
  | ExitFailure.

Definition exec (r : ExecResult) (ignoreError : bool) : Exn string :=
  match r with
  | Stdout out => Return (JS.trim out)
  | ExitFailure => if ignoreError then Return "" else Throw ExecError
  end.

(** ** The data model *)

Record LanguageStats := {
  files : Z;
  blank : Z;
  comment : Z;
  code : Z;
  complexity : option Z;
  bytes : option Z;
  lines : option Z
}.

Record Analysis := {
  elapsed_seconds : Q;
  n_files : Z;
  n_lines : Z;
  files_per_second : Q;
  lines_per_second : Q;
  counter_tool : string;
  counter_version : string
}.

Record CounterData := {
  cd_languages : JS.obj LanguageStats;
  cd_analysis : Analysis
}.

Module Commit.
Record t := { hash : string; date : string; message : string }.
End Commit.

Record CommitRecord := {
  commit : string;
  date : string;
  message : string;
  analysis : Analysis;
  languages : JS.obj LanguageStats;
  totalLines : Z;
  totalFiles : Z;
  totalBytes : Z
}.

(** ** What the counting tools print *)

(** One element of the array scc prints. *)
Record SccEntry := {
  Name : string;
  Count : option Z;
  Blank : option Z;
  Comment : option Z;
  Code : option Z;
  Complexity : option Z;
  Bytes : option Z;
  Lines : option Z
}.

(** One per-language value of the object cloc prints. *)
Record ClocStats := {
  nFiles : option Z;
  cloc_blank : option Z;
  cloc_comment : option Z;
  cloc_code : option Z
}.

Module ClocHeader.
Record t := {
  elapsed_seconds : option Q;
  n_files : option Z;
  n_lines : option Z;
  files_per_second : option Q;
  lines_per_second : option Q;
  cloc_version : option string
}.
End ClocHeader.

(** The object cloc prints: the [header] key, if any, and every key in
    order ([SUM] among them). *)
Record ClocData := {
  header : option ClocHeader.t;
  entries : JS.obj ClocStats
}.

(** The outcome of running a tool with [ignoreError] and parsing what it
    printed. *)
Inductive ToolOutput (A : Type) :=
  | NoOutput             (* the tool failed or printed nothing *)
  | Unparseable          (* [JSON.parse] or the walk over the data throws *)
  | Output (data : A).
Arguments NoOutput {A}.
Arguments Unparseable {A}.
Arguments Output {A} data.

(** The identity of a working tree: the revision checked out in it. *)
Definition WorkTree := string.

(** ** The environment of a run *)

Record World := {
  (* git *)
  git_clone : bool;
  git_branch_r : ExecResult;
  git_symbolic_ref : ExecResult;
  git_cat_file : string → bool;
  git_log : option string → string → ExecResult;
  git_checkout : string → bool;
  (* the counting tools, run on a working tree *)
  scc : WorkTree → ToolOutput (list SccEntry);
  cloc : WorkTree → ToolOutput ClocData;
  (* [Date.now()] before and after a counting tool runs on a working tree;
     only [runScc] reads it *)
  counter_clock : WorkTree → Z * Z;
  (* [Date.now()] before and after the loop of [analyzeCommits] *)
  analyze_clock : Z * Z;
  (* [new Date().toISOString()] when the session is assembled *)
  date_iso : string;
  (* [git worktree add] for a local repository *)
  git_worktree_add : bool
}.

(** ** lib/counter.mjs *)

Definition emptyAnalysis (tool : string) : CounterData :=
  {| cd_languages := [];
     cd_analysis :=
       {| elapsed_seconds := 0;
          n_files := 0;
          n_lines := 0;
          files_per_second := 0;
          lines_per_second := 0;
          counter_tool := tool;
          counter_version := "unknown" |} |}.

(** [(t1 - t0) / 1000] *)
Definition seconds_between (t : Z * Z) : Q :=
  (inject_Z (t.2 - t.1) / 1000)%Q.

(** The body of the loop over the entries scc printed: the dictionary and
    the running totals of files and lines. *)
Definition scc_step (acc : JS.obj LanguageStats * Z * Z) (entry : SccEntry)
  : JS.obj LanguageStats * Z * Z :=
  let '(languages, totalFiles, totalLines) := acc in
  (JS.obj_set languages (Name entry)
     {| files := JS.or0 (Count entry);
        blank := JS.or0 (Blank entry);
        comment := JS.or0 (Comment entry);
        code := JS.or0 (Code entry);
        complexity := Some (JS.or0 (Complexity entry));
        bytes := Some (JS.or0 (Bytes entry));
        lines := Some (JS.or0 (Lines entry)) |},
   totalFiles + JS.or0 (Count entry),
   totalLines + JS.or0 (Lines entry)).

Definition runScc (w : World) (repoDir : WorkTree) : CounterData :=
  let elapsedSeconds := seconds_between (counter_clock w repoDir) in
  match scc w repoDir with
  | NoOutput =>
      {| cd_languages := [];
         cd_analysis :=
           {| elapsed_seconds := elapsedSeconds;
              n_files := 0;
              n_lines := 0;
              files_per_second := 0;
              lines_per_second := 0;
              counter_tool := "scc";
              counter_version := "unknown" |} |}
  | Unparseable => emptyAnalysis "scc"
  | Output data =>
      let '(languages, totalFiles, totalLines) :=
        foldl scc_step ([], 0, 0) data in
      {| cd_languages := languages;
         cd_analysis :=
           {| elapsed_seconds := elapsedSeconds;
              n_files := totalFiles;
              n_lines := totalLines;
              files_per_second :=
                if Qlt_le_dec 0 elapsedSeconds
                then (inject_Z totalFiles / elapsedSeconds)%Q else 0%Q;
              lines_per_second :=
                if Qlt_le_dec 0 elapsedSeconds
                then (inject_Z totalLines / elapsedSeconds)%Q else 0%Q;
              counter_tool := "scc";
              counter_version := "3.x" |} |}
  end.

Definition cloc_step (languages : JS.obj LanguageStats)
    (entry : string * ClocStats) : JS.obj LanguageStats :=
  let '(lang, stats) := entry in
  if bool_decide (lang ≠ "header" ∧ lang ≠ "SUM") then
    JS.obj_set languages lang
      {| files := JS.or0 (nFiles stats);
         blank := JS.or0 (cloc_blank stats);
         comment := JS.or0 (cloc_comment stats);
         code := JS.or0 (cloc_code stats);
         complexity := None;
         bytes := None;
         lines := None |}
  else languages.

Definition runCloc (w : World) (repoDir : WorkTree) : CounterData :=
  match cloc w repoDir with
  | NoOutput => emptyAnalysis "cloc"
  | Unparseable => emptyAnalysis "cloc"
  | Output data =>
      let h := header data in
      {| cd_languages := foldl cloc_step [] (entries data);
         cd_analysis :=
           {| elapsed_seconds := JS.or0Q (h ≫= ClocHeader.elapsed_seconds);
              n_files := JS.or0 (h ≫= ClocHeader.n_files);
              n_lines := JS.or0 (h ≫= ClocHeader.n_lines);
              files_per_second := JS.or0Q (h ≫= ClocHeader.files_per_second);
              lines_per_second := JS.or0Q (h ≫= ClocHeader.lines_per_second);
              counter_tool := "cloc";
              counter_version :=
                JS.or_str (h ≫= ClocHeader.cloc_version) "unknown" |} |}
  end.

Definition runCounter (w : World) (tool : string) (repoDir : WorkTree)
  : CounterData :=
  if decide (tool = "scc") then runScc w repoDir else runCloc w repoDir.

(** ** lib/git.mjs *)

Definition commitExists (w : World) (hash : string) : bool :=
  git_cat_file w hash.

Definition cloneRepo (w : World) : Exn () :=
  if git_clone w then Return () else Throw ExecError.

(** [s] without the prefix [p], if it starts with it. *)
Fixpoint drop_prefix (p s : string) : option string :=
  match p, s with
  | EmptyString, _ => Some s
  | String a p', String b s' =>
      if decide (a = b) then drop_prefix p' s' else None
  | String _ _, EmptyString => None
  end.

(** The longest prefix of [s] that [.+] or [.*] can match: up to the first
    line terminator. *)
Fixpoint dot_star (s : string) : string :=
  match s with
  | EmptyString => EmptyString
  | String c s' =>
      if bool_decide (c = "010"%char ∨ c = "013"%char) then EmptyString
      else String c (dot_star s')
  end.

(** [s.match(/refs\/remotes\/origin\/(.+)/)]: the first capture group of
    the leftmost match. *)
Fixpoint match_origin_ref (s : string) : option string :=
  let here :=
    match drop_prefix "refs/remotes/origin/" s with
    | Some rest =>
        match dot_star rest with
        | EmptyString => None
        | name => Some name
        end
    | None => None
    end in
  match here, s with
  | Some name, _ => Some name
  | None, String _ s' => match_origin_ref s'
  | None, EmptyString => None
  end.

(** The branch resolution of [getCommitHistory]. *)
Definition actualBranch (w : World) (branch : string) : Exn string :=
  branches ← exec (git_branch_r w) false;
  let hasMain := JS.includes "origin/main" branches in
  let hasMaster := JS.includes "origin/master" branches in
  if bool_decide (branch = "main") && negb hasMain then
    if hasMaster then Return "master"
    else
      defaultBranchRef ← exec (git_symbolic_ref w) true;
      if bool_decide (defaultBranchRef ≠ "")
         && bool_decide (JS.trim defaultBranchRef ≠ "")
      then
        match match_origin_ref (JS.trim defaultBranchRef) with
        | Some name => Return name
        | None => Return branch
        end
      else Return branch
  else Return branch.

(** One line of the log, [hash|date|subject]. *)
Definition parse_log_line (line : string) : Exn Commit.t :=
  match JS.split "|" line with
  | hash :: date :: messageParts =>
      Return {| Commit.hash := JS.trim hash;
                Commit.date := JS.trim date;
                Commit.message := JS.trim (JS.join "|" messageParts) |}
  | _ => Throw TypeError
  end.

Definition is_blank (line : string) : bool :=
  bool_decide (JS.trim line = "").

(** [afterCommit] is used when it is truthy. *)
Definition truthy (s : option string) : option string :=
  match s with
  | Some "" | None => None
  | Some s' => Some s'
  end.

Definition getCommitHistory (w : World) (branch : string)
    (afterCommit : option string) : Exn (list Commit.t) :=
  actual ← actualBranch w branch;
  out ← exec (git_log w (truthy afterCommit) actual) false;
  let commits := filter (λ line, is_blank line = false) (JS.split "010" out) in
  mapM parse_log_line commits.

(** ** lib/analyze.mjs *)

Record AnalysisData := {
  ad_results : list CommitRecord;
  ad_allLanguages : list string;
  ad_analysisTime : Q
}.

(** The body of the loop that adds up a commit's totals. *)
Definition totals_step (acc : Z * Z * Z) (kv : string * LanguageStats)
  : Z * Z * Z :=
  let '(totalLines, totalFiles, totalBytes) := acc in
  (totalLines + code kv.2,
   totalFiles + files kv.2,
   totalBytes + JS.or0 (bytes kv.2)).

Definition add_keys (allLanguages : list string)
    (langs : JS.obj LanguageStats) : list string :=
  foldl JS.Set_add allLanguages (JS.Object_keys langs).

(** The record pushed for one commit, from what the counter returned. *)
Definition commit_record (c : Commit.t) (counterData : CounterData)
  : CommitRecord :=
  let '(totalLines, totalFiles, totalBytes) :=
    foldl totals_step (0, 0, 0) (cd_languages counterData) in
  {| commit := Commit.hash c;
     date := Commit.date c;
     message := Commit.message c;
     analysis := cd_analysis counterData;
     languages := cd_languages counterData;
     totalLines := totalLines;
     totalFiles := totalFiles;
     totalBytes := totalBytes |}.

(** [git checkout -q hash]: the working tree now holds that revision. *)
Definition checkout (w : World) (hash : string) : Exn WorkTree :=
  if git_checkout w hash then Return hash else Throw ExecError.

(** The loop over the new commits; the state is [results] and the set
    [allLanguages]. *)
Fixpoint analyze_loop (w : World) (counterTool : string)
    (commits : list Commit.t) (results : list CommitRecord)
    (allLanguages : list string)
  : Exn (list CommitRecord * list string) :=
  match commits with
  | [] => Return (results, allLanguages)
  | c :: rest =>
      repoDir ← checkout w (Commit.hash c);
      let counterData := runCounter w counterTool repoDir in
      analyze_loop w counterTool rest
        (results ++ [commit_record c counterData])
        (add_keys allLanguages (cd_languages counterData))
  end.

Section Ranking.

(** [String.prototype.localeCompare]: the collation of the host, a
    negative, zero or positive number. *)
Variable localeCompare : string → string → Z.

(** The comparison function that ranks the languages. *)
Definition compareLanguages (finalCommit : CommitRecord)
    (totalLinesInFinal : Z) (a b : string) : Q :=
  let linesA := JS.or0 (code <$> JS.obj_get (languages finalCommit) a) in
  let linesB := JS.or0 (code <$> JS.obj_get (languages finalCommit) b) in
  let percA :=
    if decide (0 < totalLinesInFinal)
    then (inject_Z linesA / inject_Z totalLinesInFinal)%Q else 0%Q in
  let percB :=
    if decide (0 < totalLinesInFinal)
    then (inject_Z linesB / inject_Z totalLinesInFinal)%Q else 0%Q in
  if negb (Qeq_bool percB percA) then (percB - percA)%Q
  else inject_Z (localeCompare a b).

Definition analyzeCommits (w : World) (commits : list Commit.t)
    (existingResults : list CommitRecord) (counterTool : string)
  : Exn AnalysisData :=
  let allLanguages :=
    foldl (λ s result, add_keys s (languages result)) [] existingResults in
  '(results, allLanguages) ←
    analyze_loop w counterTool commits existingResults allLanguages;
  let elapsedSeconds := seconds_between (analyze_clock w) in
  match last results with
  | None =>
      Return {| ad_results := [];
                ad_allLanguages := [];
                ad_analysisTime := elapsedSeconds |}
  | Some finalCommit =>
      let totalLinesInFinal :=
        foldl (λ acc kv, acc + code kv.2) 0 (languages finalCommit) in
      let languageOrder :=
        JS.sort (compareLanguages finalCommit totalLinesInFinal)
          allLanguages in
      Return {| ad_results := results;
                ad_allLanguages := languageOrder;
                ad_analysisTime := elapsedSeconds |}
  end.

End Ranking.

(** ** lib/audio.mjs *)

Module Metric.
Inductive t := lines | files | bytes.
End Metric.

Definition metrics : list Metric.t :=
  [Metric.lines; Metric.files; Metric.bytes].

(** [stats[metricKeys[metric]] || 0] *)
Definition metric_value (metric : Metric.t) (stats : LanguageStats) : Z :=
  match metric with
  | Metric.lines => code stats
  | Metric.files => files stats
  | Metric.bytes => JS.or0 (bytes stats)
  end.

(** A stored voice [[v, gain, detune]]. *)
Record Voice := { v_index : nat; v_gain : Q; v_detune : Q }.

(** The array stored for one metric: [[masterIntensity, ...activeVoices]]. *)
Record MetricFrame := { masterIntensity : Q; activeVoices : list Voice }.

Module Frame.
Record t := { lines : MetricFrame; files : MetricFrame; bytes : MetricFrame }.
End Frame.

Definition frame_metric (f : Frame.t) (metric : Metric.t) : MetricFrame :=
  match metric with
  | Metric.lines => Frame.lines f
  | Metric.files => Frame.files f
  | Metric.bytes => Frame.bytes f
  end.

(** The sum of a metric over the languages of a commit. *)
Definition metric_total (metric : Metric.t) (commit : CommitRecord) : Z :=
  foldl (λ total kv, total + metric_value metric kv.2) 0 (languages commit).

(** The scan for the smallest and largest total of a metric. *)
Definition minMax (metric : Metric.t) (results : list CommitRecord)
  : JS.ext * Z :=
  foldl (λ '(min, max) commit,
           let total := metric_total metric commit in
           (JS.Math_min min total, Z.max max total))
        (JS.Infinity, 0) results.

(** [commit.languages[lang]?.[key] || 0] *)
Definition lang_value (metric : Metric.t) (commit : CommitRecord)
    (lang : string) : Z :=
  JS.or0 (metric_value metric <$> JS.obj_get (languages commit) lang).

Definition round2 (x : Q) : Q := (inject_Z (JS.Math_round (x * 100)) / 100)%Q.
Definition round1 (x : Q) : Q := (inject_Z (JS.Math_round (x * 10)) / 10)%Q.

Definition computeMasterIntensity (min : JS.ext) (max total : Z) : Q :=
  match min with
  | JS.Fin min =>
      if decide (min < max)
      then round2 (inject_Z (total - min) / inject_Z (max - min))
      else 1%Q
  | JS.Infinity => 1%Q
  end.

Definition computeDetune (hasPrev : bool) (value prevValue : Z) : Q :=
  if hasPrev && bool_decide (0 < prevValue) then
    let growthRate := (inject_Z (value - prevValue) / inject_Z prevValue)%Q in
    Qmax (- AUDIO_DETUNE_MAX) (Qmin AUDIO_DETUNE_MAX (growthRate * AUDIO_DETUNE_MAX))
  else if bool_decide (0 < value) && bool_decide (prevValue = 0) then
    (AUDIO_DETUNE_MAX * (1 # 2))%Q
  else 0%Q.

(** One turn of the loop over the voices: [None] when it [continue]s. *)
Definition voice (metric : Metric.t) (commit : CommitRecord)
    (prevCommit : option CommitRecord) (total : Z) (v : nat) (lang : string)
  : option Voice :=
  let value := lang_value metric commit lang in
  let prevValue :=
    match prevCommit with
    | Some prev => lang_value metric prev lang
    | None => 0
    end in
  let gain :=
    if decide (0 < total) then (inject_Z value / inject_Z total)%Q else 0%Q in
  if Qeq_bool gain 0 then None
  else
    let detune := computeDetune (bool_decide (is_Some prevCommit)) value prevValue in
    Some {| v_index := v; v_gain := round2 gain; v_detune := round1 detune |}.

Fixpoint voices_from (metric : Metric.t) (commit : CommitRecord)
    (prevCommit : option CommitRecord) (total : Z) (v : nat)
    (langs : list string) : list Voice :=
  match langs with
  | [] => []
  | lang :: rest =>
      match voice metric commit prevCommit total v lang with
      | Some x => x :: voices_from metric commit prevCommit total (S v) rest
      | None => voices_from metric commit prevCommit total (S v) rest
      end
  end.

Definition metric_frame (results : list CommitRecord)
    (allLanguages : list string) (commit : CommitRecord)
    (prevCommit : option CommitRecord) (metric : Metric.t) : MetricFrame :=
  let '(min, max) := minMax metric results in
  let total := metric_total metric commit in
  let maxVoices := Nat.min (length allLanguages) AUDIO_MAX_VOICES in
  {| masterIntensity := computeMasterIntensity min max total;
     activeVoices :=
       voices_from metric commit prevCommit total 0
         (take maxVoices allLanguages) |}.

(** The loop over the commits, each with its predecessor. *)
Fixpoint frames_from (results : list CommitRecord)
    (allLanguages : list string) (prevCommit : option CommitRecord)
    (rest : list CommitRecord) : list Frame.t :=
  match rest with
  | [] => []
  | commit :: rest' =>
      let mf := metric_frame results allLanguages commit prevCommit in
      {| Frame.lines := mf Metric.lines;
         Frame.files := mf Metric.files;
         Frame.bytes := mf Metric.bytes |}
      :: frames_from results allLanguages (Some commit) rest'
  end.

Definition computeAudioData (results : list CommitRecord)
    (allLanguages : list string) : list Frame.t :=
  match results with
  | [] => []
  | _ => frames_from results allLanguages None results
  end.

(** ** lib/data.mjs *)

Module Metadata.
Record t := {
  repository_url : option string;
  analyzed_at : string;
  total_commits : Z;
  total_duration_seconds : Q;
  counter_tool : option string;
  counter_version : string;
  cloc_version : string;
  last_commit_hash : option string;
  last_commit_date : option string
}.
End Metadata.

(** The persisted session. A field that a file read back may lack is an
    option. *)
Record Session := {
  schema_version : option string;
  metadata : option Metadata.t;
  results : list CommitRecord;
  allLanguages : list string;
  audioData : list Frame.t
}.

(** What [data.json] holds: something [JSON.parse] rejects, or a session. *)
Inductive FileContent :=
  | Garbage
  | Json (data : Session).

Record FS := {
  data_json : option FileContent;
  visualization_html : option string
}.

Definition loadExistingData (fs : FS) (schemaVersion : string)
  : option Session :=
  match data_json fs with
  | None => None
  | Some Garbage => None
  | Some (Json data) =>
      match truthy (schema_version data) with
      | None => None
      | Some found =>
          if decide (found ≠ schemaVersion) then None else Some data
      end
  end.

Record CounterInfo := { tool : string; version : string }.

Definition createDataStructure (now : string) (repoUrl : string)
    (results : list CommitRecord) (allLanguages : list string)
    (analysisTime : Q) (counterInfo : option CounterInfo)
    (counterTool schemaVersion : string) : Session :=
  let lastCommit := last results in
  let audioData := computeAudioData results allLanguages in
  {| schema_version := Some schemaVersion;
     metadata := Some
       {| Metadata.repository_url := Some repoUrl;
          Metadata.analyzed_at := now;
          Metadata.total_commits := Z.of_nat (length results);
          Metadata.total_duration_seconds := analysisTime;
          Metadata.counter_tool :=
            Some (JS.or_str (tool <$> counterInfo) counterTool);
          Metadata.counter_version :=
            JS.or_str (version <$> counterInfo) "unknown";
          Metadata.cloc_version :=
            JS.or_str (version <$> counterInfo) "unknown";
          Metadata.last_commit_hash := commit <$> lastCommit;
          Metadata.last_commit_date := date <$> lastCommit |};
     results := results;
     allLanguages := allLanguages;
     audioData := audioData |}.

(** ** lib/html.mjs *)

(** Rendering the template is left to the host: given the repository URL
    and the three serialized parts of the session it returns the page or
    throws. *)
Definition Renderer : Type :=
  string → list CommitRecord → list string → list Frame.t → Exn string.

Definition generateHTML (ejs_render : Renderer) (data : Session)
    (repoUrl : string) : Exn string :=
  ejs_render repoUrl (results data) (allLanguages data) (audioData data).

(** ** analyze.mjs *)

Record Config := {
  repoUrl : string;
  forceFull : bool;
  jsonProgress : bool;
  localRepoPath : option string;
  counterTool : string
}.

(** How a run that did not throw ended. *)
Inductive Status :=
  | Complete
  | UpToDate.

(** A call of [writeFileSync] on one of the two artifacts. *)
Inductive Write :=
  | WriteData (data : Session)
  | WriteHtml (html : string).

(** A run: the files it wrote, in order, and how it ended. *)
Record IO (A : Type) := mkIO { writes : list Write; outcome : Exn A }.
Arguments mkIO {A} writes outcome.
Arguments writes {A} _.
Arguments outcome {A} _.

Global Instance io_bind : MBind IO := λ A B k m,
  match outcome m with
  | Return a => mkIO (writes m ++ writes (k a)) (outcome (k a))
  | Throw e => mkIO (writes m) (Throw e)
  end.

Global Instance io_ret : MRet IO := λ A a, mkIO [] (Return a).

Definition lift {A} (m : Exn A) : IO A := mkIO [] m.

Definition writeFileSync (wr : Write) : IO () := mkIO [wr] (Return ()).

(** The file system after the writes of a run. *)
Definition write_file (fs : FS) (wr : Write) : FS :=
  match wr with
  | WriteData data =>
      {| data_json := Some (Json data);
         visualization_html := visualization_html fs |}
  | WriteHtml html =>
      {| data_json := data_json fs; visualization_html := Some html |}
  end.

Definition fs_after (fs : FS) (ws : list Write) : FS := foldl write_file fs ws.

(** The compatibility gates applied to a session found on disk. *)
Definition compatible (cfg : Config) (fs : FS) : option Session :=
  if forceFull cfg then None
  else
    match loadExistingData fs SCHEMA_VERSION with
    | None => None
    | Some existingData =>
        let differs (found : option string) (current : string) : bool :=
          match truthy found with
          | Some x => bool_decide (x ≠ current)
          | None => false
          end in
        if differs (metadata existingData ≫= Metadata.repository_url)
             (repoUrl cfg)
        then None
        else if differs (metadata existingData ≫= Metadata.counter_tool)
                  (counterTool cfg)
        then None
        else Some existingData
    end.

(** The banner printed for a session that passed the gates reads
    [metadata.last_commit_hash.substring]; nothing is printed under
    [--json-progress]. *)
Definition found_existing (cfg : Config) (existingData : option Session)
  : Exn () :=
  match existingData with
  | Some data =>
      if jsonProgress cfg then Return ()
      else
        match metadata data with
        | Some m =>
            match Metadata.last_commit_hash m with
            | Some _ => Return ()
            | None => Throw TypeError
            end
        | None => Throw TypeError
        end
  | None => Return ()
  end.

(** [existingData && existingData.metadata.last_commit_hash] *)
Definition resume_hash (existingData : option Session)
  : Exn (option string) :=
  match existingData with
  | None => Return None
  | Some data =>
      match metadata data with
      | Some m => Return (truthy (Metadata.last_commit_hash m))
      | None => Throw TypeError
      end
  end.

Section Main.

Variable localeCompare : string → string → Z.
Variable ejs_render : Renderer.

(** The session assembled from what [analyzeCommits] returned. *)
Definition session_data (w : World) (cfg : Config)
    (analysisData : AnalysisData) : Session :=
  let counterInfo :=
    match head (ad_results analysisData) with
    | Some r =>
        {| tool := JS.or_str (Some (counter_tool (analysis r)))
                     (counterTool cfg);
           version := JS.or_str (Some (counter_version (analysis r)))
                        "unknown" |}
    | None => {| tool := counterTool cfg; version := "unknown" |}
    end in
  createDataStructure (date_iso w) (repoUrl cfg)
    (ad_results analysisData) (ad_allLanguages analysisData)
    (ad_analysisTime analysisData) (Some counterInfo)
    (counterTool cfg) SCHEMA_VERSION.

(** From the commits to analyze to the two files. *)
Definition analyze_and_save (w : World) (cfg : Config)
    (existingData : option Session) (commits : list Commit.t)
  : IO Status :=
  let existingResults :=
    match existingData with
    | Some data => results data
    | None => []
    end in
  analysisData ← lift (analyzeCommits localeCompare w commits
                         existingResults (counterTool cfg));
  let data := session_data w cfg analysisData in
  writeFileSync (WriteData data);;
  html ← lift (generateHTML ejs_render data (repoUrl cfg));
  writeFileSync (WriteHtml html);;
  mret Complete.

(** The body of the [try] block. *)
Definition main_try (w : World) (cfg : Config)
    (existingData : option Session) : IO Status :=
  lift (match truthy (localRepoPath cfg) with
        | Some _ => Return ()
        | None => cloneRepo w
        end);;
  hash ← lift (resume_hash existingData);
  let existingData :=
    match hash with
    | Some h => if commitExists w h then existingData else None
    | None => existingData
    end in
  hash ← lift (resume_hash existingData);
  match hash with
  | Some h =>
      commits ← lift (getCommitHistory w "main" (Some h));
      match commits with
      | [] => mret UpToDate
      | _ => analyze_and_save w cfg existingData commits
      end
  | None =>
      commits ← lift (getCommitHistory w "main" None);
      analyze_and_save w cfg existingData commits
  end.

(** [main]: the [finally] block removes the worktree and the temporary
    directory and rethrows; it writes neither artifact. *)
Definition main (w : World) (cfg : Config) (fs : FS) : IO Status :=
  let existingData := compatible cfg fs in
  lift (found_existing cfg existingData);;
  lift (match truthy (localRepoPath cfg) with
        | Some _ => if git_worktree_add w then Return () else Throw ExecError
        | None => Return ()
        end);;
  main_try w cfg existingData.

End Main.

(** ** lib/progress.mjs *)




(** The progress [analyzeCommits] reports before commit [i] of
    [totalCommits]: [15 + Math.floor((i / totalCommits) * 70)]. *)
Definition commitProgress (i totalCommits : Z) : Z :=
  15 + Qfloor (inject_Z i / inject_Z totalCommits * 70).

(** ** lib/html.mjs: [serializeForHtml] *)

(** A string as its UTF-16 code units. *)
Definition CodeUnits : Type := list N.

(** [s.replace(/u/g, by)] for one code unit [u]. *)
Definition replace_unit (u : N) (by_ : CodeUnits) (s : CodeUnits) : CodeUnits :=
  s ≫= λ c, if decide (c = u) then by_ else [c].

(** The six characters of an escape: a backslash, [u] and four digits. *)
Definition escape (d1 d2 d3 d4 : N) : CodeUnits := [92; 117; d1; d2; d3; d4]%N.

(** [serializeForHtml(value)], given the host's [JSON.stringify]. *)
Definition serializeForHtml {V} (JSON_stringify : V → CodeUnits) (value : V)
  : CodeUnits :=
  replace_unit 0x2029 (escape 50 48 50 57)
    (replace_unit 0x2028 (escape 50 48 50 56)
       (replace_unit 60 (escape 48 48 51 99) (JSON_stringify value))).

(** ** lib/tracing.mjs: [parseTraceParent] *)

Definition hex_lower (c : Ascii.ascii) : bool :=
  bool_decide (c ∈ String.list_ascii_of_string "0123456789abcdef").

(** [/^[0-9a-f]{n}$/.test(s)] *)
Definition test_hex (n : nat) (s : string) : bool :=
  forallb hex_lower (String.list_ascii_of_string s)
  && bool_decide (String.length s = n).

(** Where a character stands in a string of digits. *)
Definition position (c : Ascii.ascii) (digits : string) : option nat :=
  fst <$> list_find (λ d, d = c) (String.list_ascii_of_string digits).

(** The value of a digit in base 16, upper or lower case. *)
Definition digit16 (c : Ascii.ascii) : option Z :=
  Z.of_nat <$>
    match position c "0123456789abcdef" with
    | Some i => Some i
    | None => position c "0123456789ABCDEF"
    end.

(** The digits at the head of a string: their value so far, and whether
    there was one. *)
Fixpoint digits16 (acc : Z) (seen : bool) (s : string) : option Z :=
  match s with
  | String c s' =>
      match digit16 c with
      | Some d => digits16 (16 * acc + d) true s'
      | None => if seen then Some acc else None
      end
  | EmptyString => if seen then Some acc else None
  end.

(** [parseInt(s, 16)]; [None] is [NaN]. *)
Definition parseInt16 (s : string) : option Z :=
  let s := JS.trimStart s in
  let '(sign, s) :=
    match s with
    | String "-" s' => (-1, s')
    | String "+" s' => (1, s')
    | _ => (1, s)
    end in
  let s :=
    match s with
    | String "0" (String "x" s') | String "0" (String "X" s') => s'
    | _ => s
    end in
  Z.mul sign <$> digits16 0 false s.

Module TraceParent.
Record t := { traceId : string; spanId : string; traceFlags : option Z }.
End TraceParent.

Definition parseTraceParent (traceparent : option string)
  : option TraceParent.t :=
  match truthy traceparent with
  | None => None
  | Some traceparent =>
      match JS.split "-" traceparent with
      | [version; traceId; spanId; flags] =>
          if bool_decide (version ≠ "00") then None
          else if negb (test_hex 32 traceId)
                  || bool_decide (traceId = "00000000000000000000000000000000")
          then None
          else if negb (test_hex 16 spanId)
                  || bool_decide (spanId = "0000000000000000")
          then None
          else Some {| TraceParent.traceId := traceId;
                       TraceParent.spanId := spanId;
                       TraceParent.traceFlags := parseInt16 flags |}
      | _ => None
      end
  end.

(** * Specification-side definitions *)

(** ** The sums the specification speaks of *)

(** [Σ languages[*].X], a field that is absent counting as 0. *)
Definition sum_over (X : LanguageStats → Z) (langs : JS.obj LanguageStats) : Z :=
  foldr (λ kv acc, X kv.2 + acc) 0 langs.

Definition bytes_or_0 (stats : LanguageStats) : Z := JS.or0 (bytes stats).

Definition totals_hold (r : CommitRecord) : Prop :=
  totalLines r = sum_over code (languages r) ∧
  totalFiles r = sum_over files (languages r) ∧
  totalBytes r = sum_over bytes_or_0 (languages r).

(** The records [analyzeCommits] pushes for a list of commits. *)
Definition new_records (w : World) (counterTool : string)
    (commits : list Commit.t) : list CommitRecord :=
  (λ c, commit_record c (runCounter w counterTool (Commit.hash c))) <$> commits.


(** ** A sample repository

    Five commits [c1..c5] on [main]; [earlier] is the repository when it
    had only the first three, [later] the repository with all five. *)

Module Sample.

(** A collation: the order of the code units. *)
Definition codeUnitCompare (a b : string) : Z :=
  match String.compare a b with
  | Lt => -1
  | Eq => 0
  | Gt => 1
  end.

Definition render : Renderer := λ _ _ _ _, Return "<html></html>".

Definition entry (name : string) (n : Z) : SccEntry :=
  {| Name := name; Count := Some 1; Blank := Some 2; Comment := None;
     Code := Some n; Complexity := None; Bytes := Some (40 * n);
     Lines := Some (n + 2) |}.

Definition scc_of (tree : WorkTree) : ToolOutput (list SccEntry) :=
  if decide (tree = "c1") then Output [entry "A" 10]
  else if decide (tree = "c2") then Output [entry "A" 60; entry "C" 5]
  else if decide (tree = "c3") then NoOutput
  else if decide (tree = "c4") then Output [entry "C" 0; entry "B" 50; entry "A" 100]
  else if decide (tree = "c5") then Output [entry "A" 100; entry "B" 300; entry "C" 0]
  else Unparseable.

Definition cloc_of (tree : WorkTree) : ToolOutput ClocData :=
  if decide (tree = "c1") then
    Output {| header := Some {| ClocHeader.elapsed_seconds := Some (5 # 1);
                                ClocHeader.n_files := Some 1;
                                ClocHeader.n_lines := Some 12;
                                ClocHeader.files_per_second := None;
                                ClocHeader.lines_per_second := None;
                                ClocHeader.cloc_version := Some "2.00" |};
              entries := [("A", {| nFiles := Some 1; cloc_blank := Some 2;
                                   cloc_comment := None;
                                   cloc_code := Some 10 |});
                          ("SUM", {| nFiles := Some 1; cloc_blank := Some 2;
                                     cloc_comment := None;
                                     cloc_code := Some 10 |})] |}
  else NoOutput.

Definition log3 : string :=
  "c1|2024-01-01|first
c2|2024-01-02|second | with a bar
c3|2024-01-03|third".

Definition log45 : string :=
  "c4|2024-01-04|fourth
c5|2024-01-05|fifth".

Definition earlier : World :=
  {| git_clone := true;
       git_branch_r := Stdout "  origin/HEAD -> origin/main
  origin/main";
       git_symbolic_ref := Stdout "refs/remotes/origin/main";
     git_cat_file := λ h, bool_decide (h ∈ ["c1"; "c2"; "c3"]);
     git_log := λ after _,
       match after with
       | None => Stdout log3
       | Some _ => Stdout ""
       end;
     git_checkout := λ h, bool_decide (h ∈ ["c1"; "c2"; "c3"]);
     scc := scc_of;
     cloc := cloc_of;
     counter_clock := λ _, (1000, 2500);
     analyze_clock := (0, 9000);
     date_iso := "2024-01-03T00:00:00.000Z";
     git_worktree_add := true |}.

Definition later : World :=
  {| git_clone := true;
       git_branch_r := Stdout "  origin/HEAD -> origin/main
  origin/main";
       git_symbolic_ref := Stdout "refs/remotes/origin/main";
     git_cat_file := λ h, bool_decide (h ∈ ["c1"; "c2"; "c3"; "c4"; "c5"]);
     git_log := λ after _,
       match after with
       | None => Stdout (log3 +:+ "
" +:+ log45)
       | Some h => if decide (h = "c3") then Stdout log45 else ExitFailure
       end;
     git_checkout := λ h, bool_decide (h ∈ ["c1"; "c2"; "c3"; "c4"; "c5"]);
     scc := scc_of;
     cloc := cloc_of;
     counter_clock := λ _, (1000, 2500);
     analyze_clock := (0, 15000);
     date_iso := "2024-01-05T00:00:00.000Z";
     git_worktree_add := true |}.

Definition commit_of (h d m : string) : Commit.t :=
  {| Commit.hash := h; Commit.date := d; Commit.message := m |}.

Definition c1 := commit_of "c1" "2024-01-01" "first".
Definition c2 := commit_of "c2" "2024-01-02" "second | with a bar".
Definition c3 := commit_of "c3" "2024-01-03" "third".
Definition c4 := commit_of "c4" "2024-01-04" "fourth".
Definition c5 := commit_of "c5" "2024-01-05" "fifth".

Definition cfg : Config :=
  {| repoUrl := "https://example.org/repo.git";
     forceFull := false;
     jsonProgress := false;
     localRepoPath := None;
     counterTool := "scc" |}.

Definition no_files : FS :=
  {| data_json := None; visualization_html := None |}.

(** The value a computation returned, [d] if it threw. *)
Definition returned {A} (d : A) (m : Exn A) : A :=
  match m with
  | Return a => a
  | Throw _ => d
  end.

End Sample.

Definition no_analysis : AnalysisData :=
  {| ad_results := []; ad_allLanguages := []; ad_analysisTime := 0 |}.

(** ** Conditions on the environment of a run *)

(** The working copy can be set up: the clone succeeds, or, with
    [--local-repo], the worktree can be added. *)
Definition repo_ready (w : World) (cfg : Config) : Prop :=
  match truthy (localRepoPath cfg) with
  | Some _ => git_worktree_add w = true
  | None => git_clone w = true
  end.

(** Every commit of the list can be checked out. *)
Definition checkouts_ok (w : World) (commits : list Commit.t) : Prop :=
  Forall (λ c, git_checkout w (Commit.hash c) = true) commits.

(** The counter tool is one of the two the command line accepts. *)
Definition known_tool (tool : string) : Prop := tool = "scc" ∨ tool = "cloc".

(** No session on disk. *)
Definition without_session (fs : FS) : FS :=
  {| data_json := None; visualization_html := visualization_html fs |}.

(** The records a run starts from. *)
Definition existing_results (existingData : option Session) : list CommitRecord :=
  match existingData with
  | Some data => results data
  | None => []
  end.

(** A run as if no session had been persisted: set up the working copy,
    list the whole history of the branch, analyze it from nothing. *)
Definition full_run (localeCompare : string → string → Z)
    (ejs_render : Renderer) (w : World) (cfg : Config) : IO Status :=
  lift (match truthy (localRepoPath cfg) with
        | Some _ => if git_worktree_add w then Return () else Throw ExecError
        | None => Return ()
        end);;
  lift (match truthy (localRepoPath cfg) with
        | Some _ => Return ()
        | None => cloneRepo w
        end);;
  commits ← lift (getCommitHistory w "main" None);
  analyze_and_save localeCompare ejs_render w cfg None commits.

(** ** The compatibility gates, as the specification lists them

    A value is present when it is there and is not the empty string. *)
Inductive gate_failure (cfg : Config) : option FileContent → Prop :=
  | unparseable_file :
      gate_failure cfg (Some Garbage)
  | schema_mismatch data :
      schema_version data ≠ Some SCHEMA_VERSION →
      gate_failure cfg (Some (Json data))
  | other_repository data m url :
      metadata data = Some m →
      Metadata.repository_url m = Some url →
      url ≠ "" → url ≠ repoUrl cfg →
      gate_failure cfg (Some (Json data))
  | other_counter data m t :
      metadata data = Some m →
      Metadata.counter_tool m = Some t →
      t ≠ "" → t ≠ counterTool cfg →
      gate_failure cfg (Some (Json data)).

(** What a run may have written: nothing, or the session assembled from a
    completed analysis, followed or not by the page rendered from it. *)
Definition written_after_analysis (localeCompare : string → string → Z)
    (w : World) (cfg : Config) (ws : list Write) : Prop :=
  ws = [] ∨
  ∃ existingData commits analysisData,
    analyzeCommits localeCompare w commits (existing_results existingData)
      (counterTool cfg) = Return analysisData ∧
    (ws = [WriteData (session_data w cfg analysisData)] ∨
     ∃ html, ws = [WriteData (session_data w cfg analysisData); WriteHtml html]).

(** The end of a run whose analysis completed: the session is written,
    then the page is rendered from it and written. *)
Definition save_and_render (ejs_render : Renderer) (cfg : Config)
    (data : Session) : IO Status :=
  match generateHTML ejs_render data (repoUrl cfg) with
  | Return html => mkIO [WriteData data; WriteHtml html] (Return Complete)
  | Throw e => mkIO [WriteData data] (Throw e)
  end.

(** The three ways a run ends: it threw before writing anything, it found
    nothing new, or it completed the analysis and went on to write the
    session and render the page. *)
Inductive run_shape (localeCompare : string → string → Z)
    (ejs_render : Renderer) (w : World) (cfg : Config) : IO Status → Prop :=
  | threw_early e :
      run_shape localeCompare ejs_render w cfg (mkIO [] (Throw e))
  | up_to_date :
      run_shape localeCompare ejs_render w cfg (mkIO [] (Return UpToDate))
  | analyzed existingData commits ad :
      analyzeCommits localeCompare w commits (existing_results existingData)
        (counterTool cfg) = Return ad →
      run_shape localeCompare ejs_render w cfg
        (save_and_render ejs_render cfg (session_data w cfg ad)).

Module Failing.

(** The repository of [Sample.later], except that checking out [c4]
    fails. *)
Definition world : World :=
  {| git_clone := true;
     git_branch_r := git_branch_r Sample.later;
     git_symbolic_ref := git_symbolic_ref Sample.later;
     git_cat_file := git_cat_file Sample.later;
     git_log := git_log Sample.later;
     git_checkout := λ h, bool_decide (h ∈ ["c1"; "c2"; "c3"; "c5"]);
     scc := Sample.scc_of;
     cloc := Sample.cloc_of;
     counter_clock := λ _, (1000, 2500);
     analyze_clock := (0, 15000);
     date_iso := "2024-01-05T00:00:00.000Z";
     git_worktree_add := true |}.

(** A session left by an earlier run, and the page made from it. *)
Definition earlier_files : FS :=
  fs_after Sample.no_files
    (writes (main Sample.codeUnitCompare Sample.render Sample.earlier
               Sample.cfg Sample.no_files)).

End Failing.

Module Empty.

(** A repository whose log prints nothing. *)
Definition world : World :=
  {| git_clone := true;
     git_branch_r := Stdout "";
     git_symbolic_ref := ExitFailure;
     git_cat_file := λ _, false;
     git_log := λ _ _, Stdout "
";
     git_checkout := λ _, false;
     scc := λ _, NoOutput;
     cloc := λ _, NoOutput;
     counter_clock := λ _, (0, 0);
     analyze_clock := (0, 1);
     date_iso := "2024-01-01T00:00:00.000Z";
     git_worktree_add := true |}.

End Empty.

Module Mismatch.

(** A session written under another schema version. *)
Definition old_session : Session :=
  {| schema_version := Some "2.1";
     metadata := None;
     results := [];
     allLanguages := ["A"];
     audioData := [] |}.

Definition files : FS :=
  {| data_json := Some (Json old_session); visualization_html := Some "old" |}.

End Mismatch.

(** ** The claims that the code does not meet, as they are stated *)

(** Elapsed time as the specification has it: for both counters, what the
    adapter measured around the invocation. *)
Definition elapsed_is_measured (w : World) (tool : string) (tree : WorkTree)
  : Prop :=
  (elapsed_seconds (cd_analysis (runCounter w tool tree)) ==
   seconds_between (counter_clock w tree))%Q.

(** A remote branch of that name exists: a line of the listing is
    [origin/name]. *)
Definition remote_branch_exists (name listing : string) : bool :=
  bool_decide (("origin/" +:+ name) ∈ (JS.trim <$> JS.split "010" listing)).

(** Branch resolution as the specification has it, for any requested name:
    the name itself if that remote branch exists, else [master] if it
    exists, else the branch the symbolic reference of the remote points
    to. *)
Definition claimed_branch (w : World) (requested : string) : option string :=
  match git_branch_r w with
  | Stdout listing =>
      if remote_branch_exists requested listing then Some requested
      else if remote_branch_exists "master" listing then Some "master"
      else
        match git_symbolic_ref w with
        | Stdout ref => drop_prefix "refs/remotes/origin/" (JS.trim ref)
        | ExitFailure => None
        end
  | ExitFailure => None
  end.

Definition branch_resolved_as_claimed (w : World) (requested : string) : Prop :=
  ∀ name, claimed_branch w requested = Some name →
          actualBranch w requested = Return name.

Module Master.

(** A repository whose only remote branch is [master]. *)
Definition world : World :=
  {| git_clone := true;
     git_branch_r := Stdout "  origin/HEAD -> origin/master
  origin/master";
     git_symbolic_ref := Stdout "refs/remotes/origin/master";
     git_cat_file := λ _, true;
     git_log := λ _ _, Stdout Sample.log3;
     git_checkout := λ _, true;
     scc := Sample.scc_of;
     cloc := Sample.cloc_of;
     counter_clock := λ _, (1000, 2500);
     analyze_clock := (0, 9000);
     date_iso := "2024-01-03T00:00:00.000Z";
     git_worktree_add := true |}.

(** A repository with neither [main] nor [master]; the default branch is
    [trunk]. *)
Definition trunk_world : World :=
  {| git_clone := true;
     git_branch_r := Stdout "  origin/HEAD -> origin/trunk
  origin/trunk";
     git_symbolic_ref := Stdout "refs/remotes/origin/trunk
";
     git_cat_file := λ _, true;
     git_log := λ _ _, Stdout Sample.log3;
     git_checkout := λ _, true;
     scc := Sample.scc_of;
     cloc := Sample.cloc_of;
     counter_clock := λ _, (1000, 2500);
     analyze_clock := (0, 9000);
     date_iso := "2024-01-03T00:00:00.000Z";
     git_worktree_add := true |}.

End Master.

(** ** The ranking of the languages, as the specification has it *)

(** The code lines of a language in a commit, 0 if it is absent. *)
Definition lines_in (final : CommitRecord) (lang : string) : Z :=
  JS.or0 (code <$> JS.obj_get (languages final) lang).

(** Its share of the code lines of the commit, 0 if the commit has none. *)
Definition share (final : CommitRecord) (lang : string) : Q :=
  let total := sum_over code (languages final) in
  if decide (0 < total)
  then (inject_Z (lines_in final lang) / inject_Z total)%Q
  else 0%Q.

(** [a] comes before [b]: a larger share, or the same share and a name
    that does not collate after. *)
Definition ranked_before (localeCompare : string → string → Z)
    (final : CommitRecord) (a b : string) : Prop :=
  (share final b < share final a)%Q ∨
  ((share final a == share final b)%Q ∧ localeCompare a b ≤ 0).

(** A language is observed when it is a key of some record. *)
Definition observed (results : list CommitRecord) (lang : string) : Prop :=
  ∃ r, r ∈ results ∧ lang ∈ JS.Object_keys (languages r).

(** The set of languages after the records were scanned. *)
Definition keys_of (results : list CommitRecord) : list string :=
  foldl (λ s r, add_keys s (languages r)) [] results.

(** The collation is a total preorder. *)
Definition collation (localeCompare : string → string → Z) : Prop :=
  (∀ a b, localeCompare a b ≤ 0 ∨ localeCompare b a ≤ 0) ∧
  (∀ a b c, localeCompare a b ≤ 0 → localeCompare b c ≤ 0 →
            localeCompare a c ≤ 0).

(** ** Helpers for the statements about the counter adapter *)

(** The statistics [runScc] stores for one entry of what scc printed. *)
Definition scc_stats (entry : SccEntry) : LanguageStats :=
  {| files := JS.or0 (Count entry);
     blank := JS.or0 (Blank entry);
     comment := JS.or0 (Comment entry);
     code := JS.or0 (Code entry);
     complexity := Some (JS.or0 (Complexity entry));
     bytes := Some (JS.or0 (Bytes entry));
     lines := Some (JS.or0 (Lines entry)) |}.

(** The sum of a field over the entries scc printed. *)
Definition sum_entries (X : SccEntry → option Z) (data : list SccEntry) : Z :=
  foldr (λ e acc, JS.or0 (X e) + acc) 0 data.


(** The counter returned nothing usable for a working tree. *)
Definition count_failed (w : World) (tool : string) (tree : WorkTree) : Prop :=
  if decide (tool = "scc")
  then scc w tree = NoOutput ∨ scc w tree = Unparseable
  else cloc w tree = NoOutput ∨ cloc w tree = Unparseable.

Module Repeated.

(** scc printing the name [A] twice. *)
Definition world : World :=
  {| git_clone := true;
     git_branch_r := Stdout "  origin/main";
     git_symbolic_ref := ExitFailure;
     git_cat_file := λ _, true;
     git_log := λ _ _, Stdout "c1|2024-01-01|first";
     git_checkout := λ _, true;
     scc := λ _, Output [Sample.entry "A" 10; Sample.entry "B" 1;
                         Sample.entry "A" 7];
     cloc := λ _, Unparseable;
     counter_clock := λ _, (5000, 5000);
     analyze_clock := (0, 10);
     date_iso := "2024-01-01T00:00:00.000Z";
     git_worktree_add := true |}.

End Repeated.

(** ** Helpers for the statements about the log *)


Module Broken.

(** A log whose second line has no bar. *)
Definition world : World :=
  {| git_clone := true;
     git_branch_r := Stdout "  origin/main";
     git_symbolic_ref := ExitFailure;
     git_cat_file := λ _, true;
     git_log := λ _ _, Stdout "c1|2024-01-01|first
c2 2024-01-02 second";
     git_checkout := λ _, true;
     scc := λ _, NoOutput;
     cloc := λ _, NoOutput;
     counter_clock := λ _, (0, 1);
     analyze_clock := (0, 1);
     date_iso := "2024-01-02T00:00:00.000Z";
     git_worktree_add := true |}.

End Broken.

(** The collation tells distinct names apart. *)
Definition strict_collation (localeCompare : string → string → Z) : Prop :=
  collation localeCompare ∧
  ∀ a b, localeCompare a b ≤ 0 → localeCompare b a ≤ 0 → a = b.

(** ** Helpers for the statements about the audio data *)

(** The commit before the one at index [i]. *)
Definition previous (results : list CommitRecord) (i : nat)
  : option CommitRecord :=
  match i with
  | O => None
  | S j => results !! j
  end.

(** The value of a language in the commit before, 0 if there is none. *)
Definition previous_value (metric : Metric.t) (prevCommit : option CommitRecord)
    (lang : string) : Z :=
  match prevCommit with
  | Some prev => lang_value metric prev lang
  | None => 0
  end.

(** No language of the record has a byte count. *)
Definition without_bytes (r : CommitRecord) : Prop :=
  Forall (λ kv, bytes kv.2 = None) (languages r).

(** The counts of a metric are not negative in a commit. *)
Definition counts_not_negative (metric : Metric.t) (commit : CommitRecord)
  : Prop :=
  Forall (λ kv, 0 ≤ metric_value metric kv.2) (languages commit).

Module Tiny.

(** A commit with 999 lines of [A] and one line of [B]. *)
Definition record : CommitRecord :=
  commit_record Sample.c1
    {| cd_languages :=
         [("A", scc_stats (Sample.entry "A" 999));
          ("B", scc_stats (Sample.entry "B" 1))];
       cd_analysis := cd_analysis (emptyAnalysis "scc") |}.

End Tiny.

Module Forced.

Definition cfg : Config :=
  {| repoUrl := repoUrl Sample.cfg;
     forceFull := true;
     jsonProgress := false;
     localRepoPath := Some "/srv/repo";
     counterTool := "cloc" |}.

End Forced.

Module EmptySession.

(** What a run on the repository without commits leaves behind. *)
Definition files : FS :=
  fs_after Sample.no_files
    (writes (main Sample.codeUnitCompare Sample.render Empty.world Sample.cfg
               Sample.no_files)).

Definition analysis : AnalysisData :=
  {| ad_results := [];
     ad_allLanguages := [];
     ad_analysisTime := seconds_between (analyze_clock Empty.world) |}.

Definition quiet : Config :=
  {| repoUrl := repoUrl Sample.cfg;
     forceFull := false;
     jsonProgress := true;
     localRepoPath := None;
     counterTool := "scc" |}.

End EmptySession.

(** ** Code units that must not reach the page *)

Definition less_than : N := 60.
Definition line_separator : N := 0x2028.
Definition paragraph_separator : N := 0x2029.

(** ** A well-formed trace parent *)

Definition zero_trace_id : string := "00000000000000000000000000000000".
Definition zero_span_id : string := "0000000000000000".

(** [version-traceId-spanId-flags] with version [00]. *)
Definition trace_parent (traceId spanId flags : string) : string :=
  "00" +:+ "-" +:+ traceId +:+ "-" +:+ spanId +:+ "-" +:+ flags.
(** * Properties *)

Section Totals.

Lemma foldl_totals_step langs a b c :
  foldl totals_step (a, b, c) langs =
  (a + sum_over code langs, b + sum_over files langs,
   c + sum_over bytes_or_0 langs).
Proof.
  revert a b c. induction langs as [|[k s] langs IH]; intros a b c; simpl.
  - by rewrite !Z.add_0_r.
  - rewrite IH. unfold bytes_or_0. f_equal; [f_equal|]; lia.
Qed.

Lemma commit_record_totals c counterData :
  totals_hold (commit_record c counterData).
Proof.
  unfold totals_hold, commit_record.
  rewrite foldl_totals_step. simpl. repeat split; lia.
Qed.

Lemma commit_record_languages c counterData :
  languages (commit_record c counterData) = cd_languages counterData.
Proof.
  unfold commit_record.
  by destruct (foldl totals_step _ _) as [[??]?].
Qed.

(** What the loop returns when it returns: the records it was given,
    followed by one record per commit. *)
Lemma analyze_loop_returns w tool commits rs ls rs' ls' :
  analyze_loop w tool commits rs ls = Return (rs', ls') →
  rs' = rs ++ new_records w tool commits ∧
  ls' = foldl (λ s r, add_keys s (languages r)) ls
          (new_records w tool commits).
Proof.
  revert rs ls. induction commits as [|c commits IH]; intros rs ls; simpl.
  - intros [= <- <-]. by rewrite app_nil_r.
  - unfold checkout. destruct (git_checkout w (Commit.hash c)); [|done].
    simpl. intros H. apply IH in H as [-> ->].
    rewrite <- app_assoc. simpl.
    by rewrite commit_record_languages.
Qed.

(** The loop returns when every checkout succeeds. *)
Lemma analyze_loop_total w tool commits rs ls :
  Forall (λ c, git_checkout w (Commit.hash c) = true) commits →
  ∃ rs' ls', analyze_loop w tool commits rs ls = Return (rs', ls').
Proof.
  intros H. revert rs ls. induction H as [|c commits Hc _ IH]; intros rs ls.
  - by eexists _, _.
  - simpl. unfold checkout. rewrite Hc. simpl. apply IH.
Qed.

End Totals.

(** ** C1: the totals of a record *)

(** C1. [analyzeCommits] returns the records it was given followed by one
    record per new commit, and in each of these [totalLines] is the sum of
    [code] over the languages, [totalFiles] the sum of [files] and
    [totalBytes] the sum of [bytes], an absent [bytes] counting as 0. This
    holds for every world, hence for either counter and for runs of the
    counter that failed. *)
Theorem totals_invariant localeCompare w commits existingResults counterTool data :
  analyzeCommits localeCompare w commits existingResults counterTool = Return data →
  ∃ new,
    ad_results data = existingResults ++ new ∧
    length new = length commits ∧
    Forall totals_hold new.
Proof.
  unfold analyzeCommits. intros H.
  destruct (analyze_loop _ _ _ _ _) as [[rs ls]|] eqn:Hloop; [|done].
  apply analyze_loop_returns in Hloop as [-> _]. simpl in H.
  exists (new_records w counterTool commits). split; [|split].
  - destruct (last _) eqn:Hlast; injection H as <-; simpl; [done|].
    by apply last_None in Hlast.
  - unfold new_records. by rewrite length_fmap.
  - unfold new_records. apply Forall_fmap, Forall_forall. intros c _.
    apply commit_record_totals.
Qed.

Lemma totals_invariant_witness :
  let run :=
    analyzeCommits Sample.codeUnitCompare Sample.earlier
      [Sample.c1; Sample.c2; Sample.c3] [] "cloc" in
  run = Return (Sample.returned no_analysis run) ∧
  ∃ new,
    ad_results (Sample.returned no_analysis run) = [] ++ new ∧
    length new = 3%nat ∧
    Forall totals_hold new.
Proof.
  split; [by vm_compute|].
  apply (totals_invariant Sample.codeUnitCompare Sample.earlier
           [Sample.c1; Sample.c2; Sample.c3] [] "cloc").
  by vm_compute.
Defined.

(** ** Runs of [main] *)

Section Runs.

Context {A B : Type}.

Lemma lift_bind_return (a : A) (k : A → IO B) :
  lift (Return a) ≫= k = k a.
Proof. unfold mbind, io_bind, lift. simpl. by destruct (k a). Qed.

Lemma lift_bind_throw e (k : A → IO B) :
  lift (Throw e) ≫= k = mkIO [] (Throw e).
Proof. done. Qed.

Lemma write_bind (wr : Write) (k : () → IO B) :
  writeFileSync wr ≫= k = mkIO (wr :: writes (k ())) (outcome (k ())).
Proof. done. Qed.

End Runs.

Ltac io_rewrite :=
  repeat first
    [ rewrite lift_bind_return
    | rewrite lift_bind_throw
    | rewrite write_bind ].

Ltac io_simpl :=
  repeat first
    [ rewrite lift_bind_return
    | rewrite lift_bind_throw
    | rewrite write_bind
    | progress cbn [resume_hash found_existing] ].




Section MainRuns.

Variable localeCompare : string → string → Z.
Variable ejs_render : Renderer.

Lemma compatible_absent cfg fs : data_json fs = None → compatible cfg fs = None.
Proof.
  intros H. unfold compatible, loadExistingData. rewrite H.
  by destruct (forceFull cfg).
Qed.

Lemma main_no_session w cfg fs :
  compatible cfg fs = None →
  main localeCompare ejs_render w cfg fs = full_run localeCompare ejs_render w cfg.
Proof.
  intros H. unfold main, full_run, main_try. rewrite H.
  cbn [found_existing]. rewrite lift_bind_return.
  destruct (truthy (localRepoPath cfg)) as [p|].
  - destruct (git_worktree_add w); io_simpl; [|done].
    cbn [resume_hash]. by io_simpl.
  - io_simpl. destruct (cloneRepo w) as [[]|e]; io_simpl; [|done].
    cbn [resume_hash]. by io_simpl.
Qed.

(** What [analyze_and_save] does, by the outcome of the analysis and of
    the rendering. *)
Lemma analyze_and_save_throws w cfg existingData commits e :
  analyzeCommits localeCompare w commits (existing_results existingData)
    (counterTool cfg) = Throw e →
  analyze_and_save localeCompare ejs_render w cfg existingData commits =
  mkIO [] (Throw e).
Proof.
  intros H. unfold analyze_and_save. fold (existing_results existingData).
  by rewrite H.
Qed.

Lemma analyze_and_save_returns w cfg existingData commits ad :
  analyzeCommits localeCompare w commits (existing_results existingData)
    (counterTool cfg) = Return ad →
  analyze_and_save localeCompare ejs_render w cfg existingData commits =
  save_and_render ejs_render cfg (session_data w cfg ad).
Proof.
  intros H. unfold analyze_and_save, save_and_render.
  fold (existing_results existingData).
  rewrite H, lift_bind_return, write_bind.
  by destruct (generateHTML _ _ _).
Qed.


Lemma save_and_render_writes cfg data data' :
  WriteData data' ∈ writes (save_and_render ejs_render cfg data) →
  data' = data.
Proof.
  unfold save_and_render.
  destruct (generateHTML _ _ _); simpl; intros H;
    decompose_list_elem_of; congruence.
Qed.

Lemma analyze_and_save_shape w cfg existingData commits :
  run_shape localeCompare ejs_render w cfg
    (analyze_and_save localeCompare ejs_render w cfg existingData commits).
Proof.
  destruct (analyzeCommits localeCompare w commits
              (existing_results existingData) (counterTool cfg)) eqn:H.
  - rewrite (analyze_and_save_returns _ _ _ _ _ H). by econstructor.
  - rewrite (analyze_and_save_throws _ _ _ _ _ H). constructor.
Qed.

Lemma main_try_shape w cfg existingData :
  run_shape localeCompare ejs_render w cfg (main_try localeCompare ejs_render w cfg existingData).
Proof.
  unfold main_try.
  destruct (match truthy (localRepoPath cfg) with
            | Some _ => Return ()
            | None => cloneRepo w
            end) as [[]|e]; io_simpl; [|constructor].
  destruct (resume_hash existingData) as [hash|e] eqn:Hh; io_simpl;
    [|constructor].
  set (existingData' := match hash with
                        | Some h => if commitExists w h then existingData else None
                        | None => existingData
                        end).
  destruct (resume_hash existingData') as [[h|]|e]; io_simpl;
    [| |constructor].
  - destruct (getCommitHistory w "main" (Some h)) as [[|c commits]|e];
      io_simpl; [constructor| |constructor].
    apply analyze_and_save_shape.
  - destruct (getCommitHistory w "main" None) as [commits|e];
      io_simpl; [|constructor].
    apply analyze_and_save_shape.
Qed.

Lemma main_shape w cfg fs :
  run_shape localeCompare ejs_render w cfg (main localeCompare ejs_render w cfg fs).
Proof.
  unfold main.
  destruct (found_existing cfg (compatible cfg fs)) as [[]|e];
    io_simpl; [|constructor].
  destruct (match truthy (localRepoPath cfg) with
            | Some _ => if git_worktree_add w then Return () else Throw ExecError
            | None => Return ()
            end) as [[]|e]; io_simpl; [|constructor].
  apply main_try_shape.
Qed.

Lemma analyzeCommits_results w commits existing tool ad :
  analyzeCommits localeCompare w commits existing tool = Return ad →
  ad_results ad = existing ++ new_records w tool commits.
Proof.
  unfold analyzeCommits. intros H.
  destruct (analyze_loop _ _ _ _ _) as [[rs ls]|] eqn:Hloop; [|done].
  apply analyze_loop_returns in Hloop as [-> _]. simpl in H.
  destruct (last _) eqn:Hlast; injection H as <-; simpl; [done|].
  by apply last_None in Hlast.
Qed.

Lemma gate_failure_discards cfg fs :
  gate_failure cfg (data_json fs) → compatible cfg fs = None.
Proof.
  intros H. unfold compatible, loadExistingData.
  destruct (forceFull cfg); [done|].
  inversion H as [Hfs|data Hv Hfs|data m url Hm Hu Hne Hd Hfs
                  |data m t Hm Ht Hne Hd Hfs]; clear H.
  - done.
  - destruct (schema_version data) as [[|a v]|]; simpl; try done.
    case_decide as Hs; [done|].
    by rewrite Hs in Hv.
  - destruct (truthy (schema_version data)); [|done].
    case_decide; [done|]. rewrite Hm. simpl. rewrite Hu.
    destruct url; [done|]. simpl. by rewrite bool_decide_true.
  - destruct (truthy (schema_version data)); [|done].
    case_decide; [done|]. rewrite Hm. simpl.
    destruct (match truthy (Metadata.repository_url m) with
              | Some x => bool_decide (x ≠ repoUrl cfg)
              | None => false
              end); [done|].
    rewrite Ht. destruct t; [done|]. simpl. by rewrite bool_decide_true.
Qed.

End MainRuns.

(** ** C5: a session that fails a gate *)

(** C5. When [data.json] cannot be parsed, or holds a session whose
    [schema_version] is not the current one, or whose
    [metadata.repository_url] or [metadata.counter_tool] is present (there
    and not empty) and differs from the one of this run, then the run is
    the run there would have been without the file: the same files
    written and the same outcome. It lists the whole history of the branch,
    and the session it writes holds the records of these commits only. *)
Theorem gate_failure_is_fresh_start localeCompare ejs_render w cfg fs :
  gate_failure cfg (data_json fs) →
  main localeCompare ejs_render w cfg fs =
    main localeCompare ejs_render w cfg (without_session fs) ∧
  main localeCompare ejs_render w cfg fs =
    full_run localeCompare ejs_render w cfg ∧
  ∀ data, WriteData data ∈ writes (main localeCompare ejs_render w cfg fs) →
    ∃ commits,
      getCommitHistory w "main" None = Return commits ∧
      results data = new_records w (counterTool cfg) commits.
Proof.
  intros H. apply gate_failure_discards in H.
  assert (main localeCompare ejs_render w cfg fs =
          full_run localeCompare ejs_render w cfg) as Hfull
    by by apply main_no_session.
  split; [|split; [done|]].
  - rewrite Hfull. symmetry. by apply main_no_session, compatible_absent.
  - rewrite Hfull. unfold full_run. intros data.
    destruct (match truthy (localRepoPath cfg) with
              | Some _ => if git_worktree_add w then Return () else Throw ExecError
              | None => Return ()
              end) as [[]|e]; io_simpl; [|by intros ?%elem_of_nil].
    destruct (match truthy (localRepoPath cfg) with
              | Some _ => Return ()
              | None => cloneRepo w
              end) as [[]|e]; io_simpl; [|by intros ?%elem_of_nil].
    destruct (getCommitHistory w "main" None) as [commits|e]; io_simpl;
      [|by intros ?%elem_of_nil].
    intros Hd. exists commits. split; [done|].
    destruct (analyzeCommits localeCompare w commits (existing_results None)
                (counterTool cfg)) as [ad|e] eqn:Had.
    + rewrite (analyze_and_save_returns _ _ _ _ _ _ _ Had) in Hd.
      apply analyzeCommits_results in Had. simpl in Had.
      apply save_and_render_writes in Hd as ->.
      by rewrite <- Had.
    + rewrite (analyze_and_save_throws _ _ _ _ _ _ _ Had) in Hd.
      by apply elem_of_nil in Hd.
Qed.

Lemma gate_failure_is_fresh_start_witness :
  gate_failure Sample.cfg (data_json Mismatch.files) ∧
  main Sample.codeUnitCompare Sample.render Sample.later Sample.cfg Mismatch.files =
    main Sample.codeUnitCompare Sample.render Sample.later Sample.cfg
      (without_session Mismatch.files).
Proof.
  assert (gate_failure Sample.cfg (data_json Mismatch.files)) as H
    by (by apply schema_mismatch).
  split; [done|].
  apply (gate_failure_is_fresh_start Sample.codeUnitCompare Sample.render
           Sample.later Sample.cfg Mismatch.files H).
Defined.

(** ** C10: nothing is written before the walk has completed *)

Lemma fs_after_nil fs : fs_after fs [] = fs.
Proof. done. Qed.

(** C10. Whatever a run wrote, it wrote after [analyzeCommits] had
    returned: the session assembled from its result (ranking and audio
    data included), then the page. And, rendering the page apart, a run that
    throws (the clone, the enumeration of the commits, a checkout or a
    property read on [undefined] failed) has written neither file, so the
    files are as they were. *)
Theorem fatal_error_writes_nothing localeCompare ejs_render w cfg fs :
  written_after_analysis localeCompare w cfg
    (writes (main localeCompare ejs_render w cfg fs)) ∧
  ∀ e,
    (∀ data, ∃ html, generateHTML ejs_render data (repoUrl cfg) = Return html) →
    outcome (main localeCompare ejs_render w cfg fs) = Throw e →
    writes (main localeCompare ejs_render w cfg fs) = [] ∧
    fs_after fs (writes (main localeCompare ejs_render w cfg fs)) = fs.
Proof.
  destruct (main_shape localeCompare ejs_render w cfg fs)
    as [e'| |existingData commits ad Had].
  - split; [by left|]. by intros.
  - split; [by left|]. by intros.
  - split.
    + right. exists existingData, commits, ad. split; [done|].
      unfold save_and_render.
      destruct (generateHTML _ _ _) as [html|]; [right; by exists html|by left].
    + intros e Hrender. unfold save_and_render.
      destruct (Hrender (session_data w cfg ad)) as [html ->].
      done.
Qed.

Lemma fatal_error_writes_nothing_witness :
  let run :=
    main Sample.codeUnitCompare Sample.render Failing.world Sample.cfg
      Failing.earlier_files in
  outcome run = Throw ExecError ∧
  writes run = [] ∧
  fs_after Failing.earlier_files (writes run) = Failing.earlier_files.
Proof.
  split; [by vm_compute|].
  apply (proj2 (fatal_error_writes_nothing Sample.codeUnitCompare
                  Sample.render Failing.world Sample.cfg Failing.earlier_files)
           ExecError).
  - intros data. by exists "<html></html>".
  - by vm_compute.
Defined.

(** ** C7: a repository without commits *)

Lemma split_empty sep : JS.split sep "" = [""].
Proof. done. Qed.


Section EmptyRepository.

Variable localeCompare : string → string → Z.
Variable ejs_render : Renderer.



End EmptyRepository.


(** ** C2: resuming gives what one full pass gives *)






(** A session this program wrote passes the gates of a later run with the
    same repository and the same tool. *)
Lemma own_session_compatible w cfg ad fs :
  forceFull cfg = false →
  data_json fs = Some (Json (session_data w cfg ad)) →
  (∀ r, head (ad_results ad) = Some r →
        counter_tool (analysis r) = counterTool cfg) →
  compatible cfg fs = Some (session_data w cfg ad).
Proof.
  intros Hforce Hfs Htool. unfold compatible, loadExistingData.
  rewrite Hforce, Hfs. simpl.
  destruct (head (ad_results ad)) as [r|];
    [rewrite (Htool r eq_refl)|];
    destruct (repoUrl cfg), (counterTool cfg); simpl;
    by rewrite ?bool_decide_false by auto.
Qed.

Section Incremental.

Variable localeCompare : string → string → Z.
Variable ejs_render : Renderer.

(** The analysis returns when every checkout succeeds. *)
Lemma analyzeCommits_total w commits existing tool :
  checkouts_ok w commits →
  ∃ ad, analyzeCommits localeCompare w commits existing tool = Return ad.
Proof.
  intros H. unfold analyzeCommits.
  edestruct (analyze_loop_total w tool commits) as (rs & ls & ->); [done|].
  simpl. destruct (last rs); by eexists.
Qed.




End Incremental.



(** ** C8: where [elapsed_seconds] comes from *)

(** Under cloc the recorded time is the one the tool reports in its
    header: 5 seconds here, while the clock measured 1.5. *)
Lemma cloc_elapsed_is_self_reported :
  elapsed_seconds (cd_analysis (runCounter Sample.earlier "cloc" "c1")) = 5%Q ∧
  seconds_between (counter_clock Sample.earlier "c1") = (1500 # 1000)%Q ∧
  ¬ elapsed_is_measured Sample.earlier "cloc" "c1".
Proof. repeat split. by vm_compute. Qed.

(** C8, amended. Under scc the recorded [elapsed_seconds] is what the
    adapter measured around the invocation, whenever the tool printed
    nothing or something that parses (what scc prints carries no timing);
    it is 0 when the output cannot be parsed. Under cloc it is the
    [elapsed_seconds] of the header the tool printed, 0 when the header or
    the field is missing or the tool failed. *)
Theorem elapsed_seconds_source w tree :
  (scc w tree ≠ Unparseable →
   elapsed_seconds (cd_analysis (runCounter w "scc" tree)) =
   seconds_between (counter_clock w tree)) ∧
  (scc w tree = Unparseable →
   elapsed_seconds (cd_analysis (runCounter w "scc" tree)) = 0%Q) ∧
  (∀ data, cloc w tree = Output data →
   elapsed_seconds (cd_analysis (runCounter w "cloc" tree)) =
   JS.or0Q (header data ≫= ClocHeader.elapsed_seconds)) ∧
  ((∀ data, cloc w tree ≠ Output data) →
   elapsed_seconds (cd_analysis (runCounter w "cloc" tree)) = 0%Q).
Proof.
  unfold runCounter. simpl. unfold runScc, runCloc. repeat split.
  - intros H. destruct (scc w tree) as [| |data]; [done..|].
    by destruct (foldl scc_step _ data) as [[??]?].
  - by intros ->.
  - by intros data ->.
  - intros H. destruct (cloc w tree) as [| |data]; [done..|].
    by destruct (H data).
Qed.

Lemma elapsed_seconds_source_witness :
  elapsed_seconds (cd_analysis (runCounter Sample.earlier "scc" "c3")) =
    seconds_between (counter_clock Sample.earlier "c3") ∧
  elapsed_seconds (cd_analysis (runCounter Sample.earlier "cloc" "c1")) = 5%Q.
Proof.
  pose proof (elapsed_seconds_source Sample.earlier "c3") as (H3 & _).
  pose proof (elapsed_seconds_source Sample.earlier "c1") as (_ & _ & H1 & _).
  split.
  - apply H3. by vm_compute.
  - exact (H1 _ eq_refl).
Defined.

(** ** C9: the branch that is listed *)

(** Asked for [develop] where only [master] exists, the code lists
    [develop]; the specification has it fall back to [master]. *)
Lemma requested_branch_is_not_checked :
  claimed_branch Master.world "develop" = Some "master" ∧
  actualBranch Master.world "develop" = Return "develop" ∧
  ¬ branch_resolved_as_claimed Master.world "develop".
Proof.
  assert (claimed_branch Master.world "develop" = Some "master") as Hclaimed
    by by vm_compute.
  split; [done|]. split; [by vm_compute|].
  intros H. specialize (H "master" Hclaimed). by vm_compute in H.
Qed.

Lemma drop_prefix_app p s : drop_prefix p (p +:+ s) = Some s.
Proof.
  induction p as [|a p IH]; [done|]. simpl. by rewrite decide_True.
Qed.

Lemma match_origin_ref_exact name :
  name ≠ "" → dot_star name = name →
  match_origin_ref ("refs/remotes/origin/" +:+ name) = Some name.
Proof.
  intros Hne Hdot.
  assert (drop_prefix "refs/remotes/origin/" ("refs/remotes/origin/" +:+ name)
          = Some name) as Hp by apply drop_prefix_app.
  destruct name as [|a name]; [done|].
  remember ("refs/remotes/origin/" +:+ String a name) as s eqn:Hs.
  destruct s as [|b s]; [done|].
  cbn [match_origin_ref]. rewrite Hp, Hdot. done.
Qed.

(** C9, amended. The fallback applies to the requested name [main] only:
    [main] is listed if the listing of the remote branches contains
    [origin/main]; else [master] if the listing contains [origin/master];
    else the branch that the symbolic reference of the remote names, and
    [main] itself if the reference prints nothing. Any other requested name
    is listed as it is, whether the branch exists or not. *)
Theorem branch_resolution w branches :
  exec (git_branch_r w) false = Return branches →
  (∀ branch, branch ≠ "main" → actualBranch w branch = Return branch) ∧
  (JS.includes "origin/main" branches = true →
   actualBranch w "main" = Return "main") ∧
  (JS.includes "origin/main" branches = false →
   JS.includes "origin/master" branches = true →
   actualBranch w "main" = Return "master") ∧
  (JS.includes "origin/main" branches = false →
   JS.includes "origin/master" branches = false →
   ∀ ref,
     exec (git_symbolic_ref w) true = Return ref →
     (∀ name,
        JS.trim ref = "refs/remotes/origin/" +:+ name →
        name ≠ "" → dot_star name = name →
        actualBranch w "main" = Return name) ∧
     (JS.trim ref = "" → actualBranch w "main" = Return "main")).
Proof.
  intros Hb. unfold actualBranch. rewrite Hb. simpl. repeat split.
  - intros branch Hne. by rewrite bool_decide_false.
  - by intros ->.
  - by intros -> ->.
  - intros name Hname Hne Hdot. rewrite H, H0, H1. simpl.
    rewrite Hname, (match_origin_ref_exact name Hne Hdot).
    rewrite (bool_decide_true (ref ≠ "")), bool_decide_true; [done|done|].
    intros ->. by cbv in Hname.
  - intros Hempty. rewrite H, H0, H1. simpl. rewrite Hempty.
    by rewrite andb_false_r.
Qed.

Lemma branch_resolution_witness :
  actualBranch Master.world "main" = Return "master" ∧
  actualBranch Master.trunk_world "main" = Return "trunk" ∧
  actualBranch Master.trunk_world "develop" = Return "develop".
Proof.
  pose proof (branch_resolution Master.world _ eq_refl) as (_ & _ & Hm & _).
  pose proof (branch_resolution Master.trunk_world _ eq_refl)
    as (Hother & _ & _ & Ht).
  split; [|split].
  - apply Hm; by vm_compute.
  - apply (Ht eq_refl eq_refl _ eq_refl); by vm_compute.
  - by apply Hother.
Defined.

(** ** C6: the order of [allLanguages] *)

Section SetOfLanguages.

Lemma Set_add_NoDup s x : NoDup s → NoDup (JS.Set_add s x).
Proof.
  intros H. unfold JS.Set_add. case_decide; [done|].
  apply NoDup_app. split; [done|]. split; [|apply NoDup_singleton].
  intros y Hy ->%list_elem_of_singleton. done.
Qed.

Lemma Set_add_elem s x y : y ∈ JS.Set_add s x ↔ y ∈ s ∨ y = x.
Proof.
  unfold JS.Set_add. case_decide.
  - split; [by left|]. by intros [?| ->].
  - rewrite elem_of_app, list_elem_of_singleton. done.
Qed.

Lemma foldl_Set_add_NoDup keys s : NoDup s → NoDup (foldl JS.Set_add s keys).
Proof.
  revert s. induction keys as [|k keys IH]; intros s H; [done|].
  simpl. by apply IH, Set_add_NoDup.
Qed.

Lemma foldl_Set_add_elem keys s y :
  y ∈ foldl JS.Set_add s keys ↔ y ∈ s ∨ y ∈ keys.
Proof.
  revert s. induction keys as [|k keys IH]; intros s; simpl.
  - rewrite elem_of_nil. tauto.
  - rewrite IH, Set_add_elem, elem_of_cons. tauto.
Qed.

Lemma keys_fold_NoDup results s :
  NoDup s → NoDup (foldl (λ s r, add_keys s (languages r)) s results).
Proof.
  revert s. induction results as [|r results IH]; intros s H; [done|].
  simpl. by apply IH, foldl_Set_add_NoDup.
Qed.

Lemma keys_fold_elem results s y :
  y ∈ foldl (λ s r, add_keys s (languages r)) s results ↔
  y ∈ s ∨ observed results y.
Proof.
  revert s. induction results as [|r results IH]; intros s; simpl.
  - split; [by left|]. intros [?|(r & Hr & _)]; [done|].
    by apply elem_of_nil in Hr.
  - rewrite IH. unfold add_keys. rewrite foldl_Set_add_elem. split.
    + intros [[?|?]|(r' & Hr' & Hy)].
      * by left.
      * right. exists r. split; [by left|done].
      * right. exists r'. split; [by right|done].
    + intros [?|(r' & [->|Hr']%elem_of_cons & Hy)].
      * by left; left.
      * by left; right.
      * right. by exists r'.
Qed.

End SetOfLanguages.

Lemma foldl_code_sum langs a :
  foldl (λ acc kv, acc + code kv.2) a langs = a + sum_over code langs.
Proof.
  revert a. induction langs as [|kv langs IH]; intros a; simpl; [lia|].
  rewrite IH. lia.
Qed.

Section Ranking.

Variable localeCompare : string → string → Z.
Variable final : CommitRecord.

Let total := foldl (λ acc kv, acc + code kv.2) 0 (languages final).

Lemma compareLanguages_share a b :
  compareLanguages localeCompare final total a b =
  if negb (Qeq_bool (share final b) (share final a))
  then (share final b - share final a)%Q
  else inject_Z (localeCompare a b).
Proof.
  unfold compareLanguages, share, lines_in. subst total.
  by rewrite foldl_code_sum, Z.add_0_l.
Qed.

Lemma before_ranked a b :
  JS.before (compareLanguages localeCompare final total) a b ↔
  ranked_before localeCompare final a b.
Proof.
  unfold JS.before, ranked_before. rewrite compareLanguages_share.
  generalize (share final a) (share final b). intros sa sb.
  rewrite Qle_bool_iff.
  destruct (Qeq_bool sb sa) eqn:Heq; simpl.
  - apply Qeq_bool_iff in Heq. change 0%Q with (inject_Z 0).
    rewrite <- Zle_Qle. split.
    + intros H. right. split; [by symmetry|done].
    + intros [H|[_ H]]; [lra|done].
  - apply Qeq_bool_neq in Heq. split.
    + intros H. left. lra.
    + intros [H|[H _]]; [lra|]. destruct Heq. by symmetry.
Qed.

Hypothesis Hcollation : collation localeCompare.

Lemma ranked_before_total a b :
  ranked_before localeCompare final a b ∨ ranked_before localeCompare final b a.
Proof.
  unfold ranked_before.
  destruct (Q_dec (share final a) (share final b)) as [[H|H]|H].
  - right. by left.
  - left. by left.
  - destruct (proj1 Hcollation a b).
    + left. by right.
    + right. right. split; [by symmetry|done].
Qed.

Lemma ranked_before_trans a b c :
  ranked_before localeCompare final a b →
  ranked_before localeCompare final b c →
  ranked_before localeCompare final a c.
Proof.
  unfold ranked_before. intros [H1|[H1 L1]] [H2|[H2 L2]].
  - left. lra.
  - left. lra.
  - left. lra.
  - right. split; [lra|]. by apply (proj2 Hcollation a b c).
Qed.

Local Instance before_total :
  Total (JS.before (compareLanguages localeCompare final total)).
Proof. intros a b. rewrite !before_ranked. apply ranked_before_total. Qed.

Local Instance before_trans :
  Transitive (JS.before (compareLanguages localeCompare final total)).
Proof. intros a b c. rewrite !before_ranked. apply ranked_before_trans. Qed.

Lemma sort_ranked l :
  StronglySorted (ranked_before localeCompare final)
    (JS.sort (compareLanguages localeCompare final total) l).
Proof.
  unfold JS.sort.
  pose proof (StronglySorted_merge_sort
                (JS.before (compareLanguages localeCompare final total)) l) as H.
  induction H as [|x xs Hxs IH Hall]; constructor; [done|].
  eapply Forall_impl; [done|]. intros y. apply before_ranked.
Qed.

End Ranking.

Lemma sort_Permutation {A} (compareFn : A → A → Q) l :
  JS.sort compareFn l ≡ₚ l.
Proof. apply merge_sort_Permutation. Qed.

(** What [analyzeCommits] returns as [allLanguages] when there is a final
    commit: the set of the keys of the records, sorted. *)
Lemma analyzeCommits_allLanguages localeCompare w commits existing tool ad final :
  analyzeCommits localeCompare w commits existing tool = Return ad →
  last (ad_results ad) = Some final →
  ad_allLanguages ad =
  JS.sort (compareLanguages localeCompare final
             (foldl (λ acc kv, acc + code kv.2) 0 (languages final)))
    (keys_of (ad_results ad)).
Proof.
  unfold analyzeCommits. intros H Hlast.
  destruct (analyze_loop _ _ _ _ _) as [[rs ls]|] eqn:Hloop; [|done].
  apply analyze_loop_returns in Hloop as [-> ->]. simpl in H.
  destruct (last (existing ++ new_records w tool commits)) as [final'|] eqn:Hl;
    injection H as <-; simpl in *; [|done].
  rewrite Hl in Hlast. injection Hlast as ->.
  unfold keys_of. by rewrite foldl_app.
Qed.

(** C6. When there is a final commit, [allLanguages] holds every observed
    language once, and it is sorted: a language with a larger share of
    the code lines of the final commit (0 when absent from it or when the
    commit has no code lines) comes first, and among equal shares the name
    that collates first. The collation is assumed to be a total
    preorder. *)
Theorem language_ranking localeCompare w commits existing tool ad final :
  collation localeCompare →
  analyzeCommits localeCompare w commits existing tool = Return ad →
  last (ad_results ad) = Some final →
  NoDup (ad_allLanguages ad) ∧
  (∀ lang, lang ∈ ad_allLanguages ad ↔ observed (ad_results ad) lang) ∧
  StronglySorted (ranked_before localeCompare final) (ad_allLanguages ad).
Proof.
  intros Hc Had Hlast.
  rewrite (analyzeCommits_allLanguages _ _ _ _ _ _ _ Had Hlast).
  split; [|split].
  - rewrite sort_Permutation. by apply keys_fold_NoDup, NoDup_nil.
  - intros lang. rewrite sort_Permutation. unfold keys_of.
    rewrite keys_fold_elem, elem_of_nil. tauto.
  - by apply sort_ranked.
Qed.

Lemma codeUnitCompare_le a b : Sample.codeUnitCompare a b ≤ 0 ↔ String.le a b.
Proof.
  unfold Sample.codeUnitCompare, String.le, String.leb.
  destruct (String.compare a b); simpl; split; (done || lia).
Qed.

Lemma codeUnitCompare_collation : collation Sample.codeUnitCompare.
Proof.
  split.
  - intros a b. rewrite !codeUnitCompare_le. apply String.le_total.
  - intros a b c. rewrite !codeUnitCompare_le. apply transitivity.
Qed.

Lemma language_ranking_witness :
  let commits := [Sample.c1; Sample.c2; Sample.c3; Sample.c4; Sample.c5] in
  let run := analyzeCommits Sample.codeUnitCompare Sample.later commits [] "scc" in
  let ad := Sample.returned no_analysis run in
  let final := commit_record Sample.c5 (runCounter Sample.later "scc" "c5") in
  (sum_over code (languages final) = 400 ∧
   lines_in final "A" = 100 ∧ lines_in final "B" = 300 ∧ lines_in final "C" = 0 ∧
   ad_allLanguages ad = ["B"; "A"; "C"]) ∧
  NoDup (ad_allLanguages ad) ∧
  (∀ lang, lang ∈ ad_allLanguages ad ↔ observed (ad_results ad) lang) ∧
  StronglySorted (ranked_before Sample.codeUnitCompare final) (ad_allLanguages ad).
Proof.
  split; [by vm_compute|].
  apply (language_ranking Sample.codeUnitCompare Sample.later
           [Sample.c1; Sample.c2; Sample.c3; Sample.c4; Sample.c5] [] "scc").
  - apply codeUnitCompare_collation.
  - by vm_compute.
  - by vm_compute.
Defined.

(** ** Rounding *)

Section Rounding.

Local Open Scope Q_scope.

Lemma Math_round_close x :
  x - (1 # 2) < inject_Z (JS.Math_round x) ∧
  inject_Z (JS.Math_round x) <= x + (1 # 2).
Proof.
  unfold JS.Math_round.
  pose proof (Qfloor_le (x + (1 # 2))) as Hle.
  pose proof (Qlt_floor (x + (1 # 2))) as Hlt.
  rewrite inject_Z_plus in Hlt. change (inject_Z 1) with 1 in Hlt.
  split; lra.
Qed.

(** Rounding stays between two integers that enclose the number. *)
Lemma Math_round_between (a b : Z) x :
  inject_Z a <= x → x <= inject_Z b →
  (a ≤ JS.Math_round x ≤ b)%Z.
Proof.
  intros Ha Hb. destruct (Math_round_close x) as [Hlo Hhi]. split.
  - apply Z.lt_succ_r. rewrite Zlt_Qlt. unfold Z.succ.
    rewrite inject_Z_plus. change (inject_Z 1) with 1. lra.
  - apply Z.lt_succ_r. rewrite Zlt_Qlt. unfold Z.succ.
    rewrite inject_Z_plus. change (inject_Z 1) with 1. lra.
Qed.

Lemma round2_close g :
  g - (1 # 200) < round2 g ∧ round2 g <= g + (1 # 200).
Proof.
  unfold round2. destruct (Math_round_close (g * 100)) as [Hlo Hhi].
  set (y := inject_Z (JS.Math_round (g * 100))) in *.
  unfold Qdiv. change (/ 100) with (1 # 100). split; lra.
Qed.

Lemma round2_unit x : 0 <= x → x <= 1 → 0 <= round2 x ∧ round2 x <= 1.
Proof.
  intros H0 H1. unfold round2.
  destruct (Math_round_between 0 100 (x * 100)) as [Hlo Hhi].
  { change (inject_Z 0) with 0. lra. }
  { change (inject_Z 100) with 100. lra. }
  rewrite Zle_Qle in Hlo, Hhi.
  change (inject_Z 0) with 0 in Hlo. change (inject_Z 100) with 100 in Hhi.
  set (y := inject_Z (JS.Math_round (x * 100))) in *.
  unfold Qdiv. change (/ 100) with (1 # 100). split; lra.
Qed.

Lemma round1_detune x :
  - (25) <= x → x <= 25 → - (25) <= round1 x ∧ round1 x <= 25.
Proof.
  intros H0 H1. unfold round1.
  destruct (Math_round_between (-250) 250 (x * 10)) as [Hlo Hhi].
  { change (inject_Z (-250)) with (- (250)). lra. }
  { change (inject_Z 250) with 250. lra. }
  rewrite Zle_Qle in Hlo, Hhi.
  change (inject_Z (-250)) with (- (250)) in Hlo.
  change (inject_Z 250) with 250 in Hhi.
  set (y := inject_Z (JS.Math_round (x * 10))) in *.
  unfold Qdiv. change (/ 10) with (1 # 10). split; lra.
Qed.

Lemma computeDetune_bounds hasPrev value prevValue :
  - (25) <= computeDetune hasPrev value prevValue ∧
  computeDetune hasPrev value prevValue <= 25.
Proof.
  unfold computeDetune, AUDIO_DETUNE_MAX.
  destruct (hasPrev && bool_decide (0 < prevValue)%Z).
  - set (x := _ * 25). split.
    + apply Q.le_max_l.
    + apply Q.max_lub; [lra|]. apply Q.le_min_l.
  - destruct (bool_decide (0 < value)%Z && bool_decide (prevValue = 0%Z));
      split; lra.
Qed.

(** A quotient of two counts, the first within the second. *)
Lemma quotient_unit (a b : Z) :
  (0 ≤ a)%Z → (a ≤ b)%Z → (0 < b)%Z →
  0 <= inject_Z a / inject_Z b ∧ inject_Z a / inject_Z b <= 1.
Proof.
  intros Ha Hab Hb.
  assert (0 < inject_Z b) as Hb'
    by (change 0 with (inject_Z 0); by rewrite <- Zlt_Qlt).
  assert (0 <= inject_Z a) as Ha'
    by (change 0 with (inject_Z 0); by rewrite <- Zle_Qle).
  assert (inject_Z a <= inject_Z b) as Hab' by by rewrite <- Zle_Qle.
  split.
  - apply Qle_shift_div_l; [done|]. lra.
  - apply Qle_shift_div_r; [done|]. lra.
Qed.

End Rounding.

(** * Further properties of the code *)

(** ** Objects *)

Section Objects.

Context {V : Type}.
Implicit Types (o : JS.obj V) (k : string) (v : V).

Lemma obj_get_set_eq o k v : JS.obj_get (JS.obj_set o k v) k = Some v.
Proof.
  induction o as [|[k' v'] o IH]; simpl.
  - by rewrite decide_True.
  - destruct (decide (k' = k)) as [->|Hne]; simpl.
    + by rewrite decide_True.
    + by rewrite decide_False.
Qed.

Lemma obj_get_set_ne o k k' v :
  k ≠ k' → JS.obj_get (JS.obj_set o k v) k' = JS.obj_get o k'.
Proof.
  intros Hne. induction o as [|[k0 v0] o IH]; simpl.
  - by rewrite decide_False.
  - destruct (decide (k0 = k)) as [->|Hne0]; simpl.
    + by rewrite !decide_False.
    + by rewrite IH.
Qed.

Lemma obj_set_keys_elem o k v k' :
  k' ∈ JS.Object_keys (JS.obj_set o k v) ↔ k' ∈ JS.Object_keys o ∨ k' = k.
Proof.
  unfold JS.Object_keys. induction o as [|[k0 v0] o IH]; simpl.
  - rewrite list_elem_of_singleton, elem_of_nil. tauto.
  - destruct (decide (k0 = k)) as [->|Hne]; simpl.
    + rewrite !elem_of_cons. tauto.
    + rewrite !elem_of_cons, IH. tauto.
Qed.

Lemma obj_set_keys_NoDup o k v :
  NoDup (JS.Object_keys o) → NoDup (JS.Object_keys (JS.obj_set o k v)).
Proof.
  unfold JS.Object_keys. induction o as [|[k0 v0] o IH]; simpl; intros H.
  - apply NoDup_singleton.
  - apply NoDup_cons in H as [Hk0 H].
    destruct (decide (k0 = k)) as [->|Hne]; simpl.
    + by apply NoDup_cons.
    + apply NoDup_cons. split; [|by apply IH].
      intros Hin. apply (obj_set_keys_elem o k v k0) in Hin as [?|?]; done.
Qed.


Lemma obj_get_elem o k v : JS.obj_get o k = Some v → (k, v) ∈ o.
Proof.
  induction o as [|[k0 v0] o IH]; simpl; [done|].
  destruct (decide (k0 = k)) as [->|Hne].
  - intros [= ->]. by left.
  - intros H. right. by apply IH.
Qed.

Lemma obj_get_None o k : JS.obj_get o k = None ↔ k ∉ JS.Object_keys o.
Proof.
  unfold JS.Object_keys. induction o as [|[k0 v0] o IH]; simpl.
  - split; [intros _; apply not_elem_of_nil|done].
  - rewrite not_elem_of_cons. destruct (decide (k0 = k)) as [->|Hne].
    + split; [done|]. by intros [? _].
    + rewrite IH. split; [|by intros [_ ?]]. intros H. split; [done|done].
Qed.

End Objects.

(** ** lib/counter.mjs *)

Section Scc.

Lemma scc_step_stats acc entry :
  scc_step acc entry =
  (JS.obj_set acc.1.1 (Name entry) (scc_stats entry),
   acc.1.2 + JS.or0 (Count entry),
   acc.2 + JS.or0 (Lines entry)).
Proof. by destruct acc as [[??]?]. Qed.

Lemma foldl_scc_step_cons o a b e data :
  foldl scc_step (o, a, b) (e :: data) =
  foldl scc_step (JS.obj_set o (Name e) (scc_stats e),
                  a + JS.or0 (Count e), b + JS.or0 (Lines e)) data.
Proof. done. Qed.

Lemma foldl_scc_step_totals data o a b :
  (foldl scc_step (o, a, b) data).1.2 = a + sum_entries Count data ∧
  (foldl scc_step (o, a, b) data).2 = b + sum_entries Lines data.
Proof.
  revert o a b. induction data as [|e data IH]; intros o a b.
  - simpl. split; lia.
  - rewrite foldl_scc_step_cons.
    destruct (IH (JS.obj_set o (Name e) (scc_stats e))
                 (a + JS.or0 (Count e)) (b + JS.or0 (Lines e))) as [-> ->].
    simpl. split; lia.
Qed.

Lemma foldl_scc_step_keys_NoDup data o a b :
  NoDup (JS.Object_keys o) →
  NoDup (JS.Object_keys (foldl scc_step (o, a, b) data).1.1).
Proof.
  revert o a b. induction data as [|e data IH]; intros o a b H; [done|].
  rewrite foldl_scc_step_cons. by apply IH, obj_set_keys_NoDup.
Qed.

Lemma foldl_scc_step_get_other data o a b k :
  k ∉ Name <$> data →
  JS.obj_get (foldl scc_step (o, a, b) data).1.1 k = JS.obj_get o k.
Proof.
  revert o a b. induction data as [|e data IH]; intros o a b Hk; [done|].
  rewrite fmap_cons in Hk. apply not_elem_of_cons in Hk as [Hne Hk].
  rewrite foldl_scc_step_cons, IH by done. by apply obj_get_set_ne.
Qed.


End Scc.


Lemma runScc_output w tree data :
  scc w tree = Output data →
  cd_languages (runScc w tree) = (foldl scc_step ([], 0, 0) data).1.1 ∧
  n_files (cd_analysis (runScc w tree)) = (foldl scc_step ([], 0, 0) data).1.2 ∧
  n_lines (cd_analysis (runScc w tree)) = (foldl scc_step ([], 0, 0) data).2.
Proof.
  intros Hout. unfold runScc. rewrite Hout.
  by destruct (foldl scc_step ([], 0, 0) data) as [[??]?].
Qed.



(** When scc prints a name more than once, the language keeps the
    statistics of the last entry of that name and no key is doubled, while
    the file count of the analysis metadata adds up every entry. *)
Theorem runScc_repeated_name w tree pre e post :
  scc w tree = Output (pre ++ e :: post) →
  Name e ∉ Name <$> post →
  JS.obj_get (cd_languages (runScc w tree)) (Name e) = Some (scc_stats e) ∧
  NoDup (JS.Object_keys (cd_languages (runScc w tree))) ∧
  n_files (cd_analysis (runScc w tree)) =
    sum_entries Count (pre ++ e :: post).
Proof.
  intros Hout Hlast.
  destruct (runScc_output w tree _ Hout) as (-> & -> & _).
  destruct (foldl_scc_step_totals (pre ++ e :: post) [] 0 0) as [Hf _].
  split; [|split].
  - rewrite foldl_app.
    destruct (foldl scc_step ([], 0, 0) pre) as [[o a] b].
    rewrite foldl_scc_step_cons, foldl_scc_step_get_other by done.
    apply obj_get_set_eq.
  - apply foldl_scc_step_keys_NoDup, NoDup_nil_2.
  - unfold JS.obj in *. rewrite Hf. lia.
Qed.

Lemma runScc_repeated_name_witness :
  JS.obj_get (cd_languages (runScc Repeated.world "c1")) "A" =
    Some (scc_stats (Sample.entry "A" 7)) ∧
  NoDup (JS.Object_keys (cd_languages (runScc Repeated.world "c1"))) ∧
  n_files (cd_analysis (runScc Repeated.world "c1")) = 3.
Proof.
  apply (runScc_repeated_name Repeated.world "c1"
           [Sample.entry "A" 10; Sample.entry "B" 1] (Sample.entry "A" 7) []).
  - by vm_compute.
  - apply not_elem_of_nil.
Defined.




Section Cloc.

Lemma cloc_step_cons o k stats es :
  foldl cloc_step o ((k, stats) :: es) = foldl cloc_step (cloc_step o (k, stats)) es.
Proof. done. Qed.

Lemma cloc_step_keys o k stats k' :
  k' ∈ JS.Object_keys (cloc_step o (k, stats)) ↔
  k' ∈ JS.Object_keys o ∨ (k' = k ∧ k ≠ "header" ∧ k ≠ "SUM").
Proof.
  unfold cloc_step. case_bool_decide as H.
  - rewrite obj_set_keys_elem. naive_solver.
  - naive_solver.
Qed.

Lemma foldl_cloc_step_keys es o k :
  k ∈ JS.Object_keys (foldl cloc_step o es) ↔
  k ∈ JS.Object_keys o ∨
  (k ∈ JS.Object_keys es ∧ k ≠ "header" ∧ k ≠ "SUM").
Proof.
  revert o. induction es as [|[k0 stats] es IH]; intros o.
  - simpl. unfold JS.Object_keys at 2. simpl. rewrite elem_of_nil. tauto.
  - rewrite cloc_step_cons, IH, cloc_step_keys.
    unfold JS.Object_keys at 4. rewrite fmap_cons, elem_of_cons. simpl.
    fold (JS.Object_keys es). naive_solver.
Qed.

Lemma cloc_step_absent o kv :
  Forall (λ kv, complexity kv.2 = None ∧ bytes kv.2 = None ∧ lines kv.2 = None) o →
  Forall (λ kv, complexity kv.2 = None ∧ bytes kv.2 = None ∧ lines kv.2 = None)
    (cloc_step o kv).
Proof.
  destruct kv as [k stats]. unfold cloc_step. case_bool_decide as Hk; [|done].
  induction o as [|[k0 v0] o IH]; simpl; intros Ho.
  - by repeat constructor.
  - apply Forall_cons in Ho as [H0 Ho]. case_decide.
    + by constructor.
    + constructor; [done|]. by apply IH.
Qed.

Lemma foldl_cloc_step_absent es o :
  Forall (λ kv, complexity kv.2 = None ∧ bytes kv.2 = None ∧ lines kv.2 = None) o →
  Forall (λ kv, complexity kv.2 = None ∧ bytes kv.2 = None ∧ lines kv.2 = None)
    (foldl cloc_step o es).
Proof.
  revert o. induction es as [|kv es IH]; intros o H; [done|].
  simpl. by apply IH, cloc_step_absent.
Qed.

End Cloc.

(** The languages [runCloc] returns are the keys of what cloc printed
    other than [header] and [SUM]: these two never become languages, and
    no other key is dropped. *)
Theorem runCloc_languages w tree k :
  k ∈ JS.Object_keys (cd_languages (runCloc w tree)) ↔
  ∃ data, cloc w tree = Output data ∧
          k ∈ JS.Object_keys (entries data) ∧ k ≠ "header" ∧ k ≠ "SUM".
Proof.
  unfold runCloc. destruct (cloc w tree) as [| |data]; simpl.
  - split; [by intros ?%elem_of_nil|]. by intros (? & ? & _).
  - split; [by intros ?%elem_of_nil|]. by intros (? & ? & _).
  - rewrite foldl_cloc_step_keys. unfold JS.Object_keys at 1. simpl.
    rewrite elem_of_nil. split.
    + intros [[]|H]. by exists data.
    + intros (data' & [= <-] & H). by right.
Qed.

Lemma runCloc_fields_absent w tree :
  Forall (λ kv, complexity kv.2 = None ∧ bytes kv.2 = None ∧ lines kv.2 = None)
    (cd_languages (runCloc w tree)).
Proof.
  unfold runCloc. destruct (cloc w tree) as [| |data]; simpl; [done..|].
  by apply foldl_cloc_step_absent.
Qed.

(** cloc gives no byte counts: no language of its result has [bytes],
    [complexity] or [lines], and the record of a commit counted with it
    has [totalBytes] 0. *)
Theorem runCloc_no_bytes w tree c :
  Forall (λ kv, complexity kv.2 = None ∧ bytes kv.2 = None ∧ lines kv.2 = None)
    (cd_languages (runCloc w tree)) ∧
  totalBytes (commit_record c (runCloc w tree)) = 0.
Proof.
  pose proof (runCloc_fields_absent w tree) as H.
  split; [done|].
  pose proof (commit_record_totals c (runCloc w tree)) as (_ & _ & ->).
  rewrite commit_record_languages.
  induction H as [|kv o (_ & Hb & _) _ IH]; simpl; [done|].
  unfold bytes_or_0 at 1. by rewrite Hb, IH.
Qed.

(** A count that failed (the tool printed nothing, or what it printed
    does not parse) still gives a record for the commit: no languages, all
    totals 0, and metadata that names the tool that was tried. *)
Theorem failed_count_record w tool c :
  known_tool tool →
  count_failed w tool (Commit.hash c) →
  let r := commit_record c (runCounter w tool (Commit.hash c)) in
  commit r = Commit.hash c ∧
  languages r = [] ∧
  totalLines r = 0 ∧ totalFiles r = 0 ∧ totalBytes r = 0 ∧
  counter_tool (analysis r) = tool ∧
  counter_version (analysis r) = "unknown" ∧
  n_files (analysis r) = 0 ∧ n_lines (analysis r) = 0.
Proof.
  intros Htool Hfail r. subst r. unfold count_failed, runCounter in *.
  destruct Htool as [-> | ->]; simpl in *.
  - unfold runScc. by destruct Hfail as [-> | ->].
  - unfold runCloc. by destruct Hfail as [-> | ->].
Qed.

Lemma failed_count_record_witness :
  let r := commit_record Sample.c3 (runCounter Sample.later "scc" "c3") in
  commit r = "c3" ∧
  languages r = [] ∧
  totalLines r = 0 ∧ totalFiles r = 0 ∧ totalBytes r = 0 ∧
  counter_tool (analysis r) = "scc" ∧
  counter_version (analysis r) = "unknown" ∧
  n_files (analysis r) = 0 ∧ n_lines (analysis r) = 0.
Proof.
  apply (failed_count_record Sample.later "scc" Sample.c3).
  - by left.
  - left. by vm_compute.
Defined.

(** ** Strings *)

Section Strings.

Implicit Types (s t : string) (c : Ascii.ascii).

Lemma str_app_cons c s t : String c s +:+ t = String c (s +:+ t).
Proof. done. Qed.

Lemma str_app_nil_r s : s +:+ "" = s.
Proof. induction s as [|c s IH]; [done|]. by rewrite str_app_cons, IH. Qed.

Lemma str_app_assoc s t u : (s +:+ t) +:+ u = s +:+ (t +:+ u).
Proof.
  induction s as [|c s IH]; [done|]. by rewrite !str_app_cons, IH.
Qed.

Lemma rev_app_app s t : String.rev_app s t = String.rev s +:+ t.
Proof.
  unfold String.rev. revert t. induction s as [|c s IH]; intros t; [done|].
  simpl. rewrite (IH (String c t)), (IH (String c "")).
  by rewrite str_app_assoc.
Qed.

Lemma rev_cons c s : String.rev (String c s) = String.rev s +:+ String c "".
Proof. unfold String.rev at 1. simpl. apply rev_app_app. Qed.

Lemma includes_char_cons c a s :
  JS.includes (String c "") (String a s) =
  bool_decide (c = a) || JS.includes (String c "") s.
Proof.
  simpl. destruct (ascii_dec c a) as [->|Hne].
  - rewrite bool_decide_true by done. by destruct s.
  - by rewrite bool_decide_false.
Qed.

Lemma split_go_nonempty c cur s : JS.split_go c cur s ≠ [].
Proof.
  revert cur. induction s as [|a s IH]; intros cur; simpl; [done|].
  case_decide; [done|]. apply IH.
Qed.

Lemma join_cons sep p ps :
  ps ≠ [] → JS.join sep (p :: ps) = p +:+ sep +:+ JS.join sep ps.
Proof. by destruct ps. Qed.

Lemma join_split_go c cur s :
  JS.join (String c "") (JS.split_go c cur s) = String.rev cur +:+ s.
Proof.
  revert cur. induction s as [|a s IH]; intros cur; simpl.
  - by rewrite str_app_nil_r.
  - case_decide as Ha.
    + subst a. rewrite join_cons by apply split_go_nonempty. by rewrite IH.
    + by rewrite IH, rev_cons, str_app_assoc.
Qed.

(** A string without the separator is one field. *)
Lemma split_go_free c cur s :
  JS.includes (String c "") s = false →
  JS.split_go c cur s = [String.rev cur +:+ s].
Proof.
  revert cur. induction s as [|a s IH]; intros cur H.
  - simpl. by rewrite str_app_nil_r.
  - rewrite includes_char_cons in H. apply orb_false_iff in H as [Hne H].
    apply bool_decide_eq_false in Hne. simpl.
    rewrite decide_False by done.
    by rewrite IH, rev_cons, str_app_assoc.
Qed.

(** The first field ends at the first separator. *)
Lemma split_go_first c cur s rest :
  JS.includes (String c "") s = false →
  JS.split_go c cur (s +:+ String c rest) =
  (String.rev cur +:+ s) :: JS.split_go c "" rest.
Proof.
  revert cur. induction s as [|a s IH]; intros cur H.
  - simpl. rewrite decide_True by done. by rewrite str_app_nil_r.
  - rewrite includes_char_cons in H. apply orb_false_iff in H as [Hne H].
    apply bool_decide_eq_false in Hne. rewrite str_app_cons. simpl.
    rewrite decide_False by done.
    by rewrite IH, rev_cons, str_app_assoc.
Qed.

End Strings.

(** ** lib/git.mjs *)

(** Joining the fields of a split gives the string back. *)
Theorem join_split c s : JS.join (String c "") (JS.split c s) = s.
Proof. unfold JS.split. by rewrite join_split_go. Qed.

(** In a log line the hash and the date are the first two fields and the
    message is all that follows: bars in the message stay in it. *)
Theorem parse_log_line_message hash date message :
  JS.includes "|" hash = false →
  JS.includes "|" date = false →
  parse_log_line (hash +:+ "|" +:+ date +:+ "|" +:+ message) =
  Return {| Commit.hash := JS.trim hash;
            Commit.date := JS.trim date;
            Commit.message := JS.trim message |}.
Proof.
  intros Hh Hd. unfold parse_log_line, JS.split.
  change (hash +:+ "|" +:+ date +:+ "|" +:+ message)
    with (hash +:+ String "|" (date +:+ String "|" message)).
  rewrite (split_go_first "|" "" hash) by done.
  rewrite (split_go_first "|" "" date) by done.
  fold (JS.split "|" message). by rewrite (join_split "|" message).
Qed.

Lemma parse_log_line_message_witness :
  parse_log_line "c2|2024-01-02|second | with a bar" =
  Return {| Commit.hash := "c2";
            Commit.date := "2024-01-02";
            Commit.message := "second | with a bar" |}.
Proof.
  apply (parse_log_line_message "c2" "2024-01-02" "second | with a bar");
    by vm_compute.
Defined.




Section MapM.

Context {A B : Type} (f : A → Exn B).




End MapM.



(** ** lib/analyze.mjs *)

Lemma analyze_loop_throws w tool commits rs ls :
  ¬ checkouts_ok w commits →
  analyze_loop w tool commits rs ls = Throw ExecError.
Proof.
  unfold checkouts_ok. revert rs ls.
  induction commits as [|c commits IH]; intros rs ls H.
  - by destruct H.
  - simpl. unfold checkout.
    destruct (git_checkout w (Commit.hash c)) eqn:Hc; [|done].
    simpl. apply IH. intros Hrest. apply H. by constructor.
Qed.

(** The analysis returns exactly when every commit can be checked out; a
    failing checkout makes it throw and no record is returned, not even
    those of the commits before. *)
Theorem analyzeCommits_checkouts localeCompare w commits existing tool :
  (checkouts_ok w commits →
   ∃ ad, analyzeCommits localeCompare w commits existing tool = Return ad) ∧
  (¬ checkouts_ok w commits →
   analyzeCommits localeCompare w commits existing tool = Throw ExecError).
Proof.
  split.
  - apply analyzeCommits_total.
  - intros H. unfold analyzeCommits. by rewrite analyze_loop_throws.
Qed.

Lemma analyzeCommits_checkouts_witness :
  (∃ ad, analyzeCommits Sample.codeUnitCompare Sample.later
           [Sample.c4; Sample.c5] [] "scc" = Return ad) ∧
  analyzeCommits Sample.codeUnitCompare Failing.world
    [Sample.c3; Sample.c4; Sample.c5] [] "scc" = Throw ExecError.
Proof.
  split.
  - apply (analyzeCommits_checkouts Sample.codeUnitCompare Sample.later).
    repeat constructor.
  - apply (analyzeCommits_checkouts Sample.codeUnitCompare Failing.world).
    intros H. apply Forall_cons in H as [_ H]. apply Forall_cons in H as [H _].
    by vm_compute in H.
Defined.

Lemma commit_record_fields c counterData :
  commit (commit_record c counterData) = Commit.hash c ∧
  date (commit_record c counterData) = Commit.date c ∧
  message (commit_record c counterData) = Commit.message c.
Proof.
  unfold commit_record. by destruct (foldl totals_step _ _) as [[??]?].
Qed.

(** The new records follow the commits they were made from: the same
    number, the same order, and each carries the hash, date and message of
    its commit. *)
Theorem results_follow_commits localeCompare w commits existing tool ad :
  analyzeCommits localeCompare w commits existing tool = Return ad →
  Forall2 (λ r c, commit r = Commit.hash c ∧ date r = Commit.date c
                  ∧ message r = Commit.message c)
    (drop (length existing) (ad_results ad)) commits.
Proof.
  intros H. rewrite (analyzeCommits_results _ _ _ _ _ _ H).
  rewrite drop_app_length. unfold new_records.
  apply Forall2_fmap_l, Forall_Forall2_diag, Forall_forall. intros c _.
  apply commit_record_fields.
Qed.

Lemma results_follow_commits_witness :
  Forall2 (λ r c, commit r = Commit.hash c ∧ date r = Commit.date c
                  ∧ message r = Commit.message c)
    (drop 0 (ad_results
               (Sample.returned no_analysis
                  (analyzeCommits Sample.codeUnitCompare Sample.later
                     [Sample.c4; Sample.c5] [] "scc"))))
    [Sample.c4; Sample.c5].
Proof.
  apply (results_follow_commits Sample.codeUnitCompare Sample.later
           [Sample.c4; Sample.c5] [] "scc").
  by vm_compute.
Defined.

Lemma allLanguages_empty localeCompare w commits existing tool ad :
  analyzeCommits localeCompare w commits existing tool = Return ad →
  last (ad_results ad) = None →
  ad_allLanguages ad = [] ∧ ad_results ad = [].
Proof.
  intros Had Hlast. apply last_None in Hlast. split; [|done].
  unfold analyzeCommits in Had.
  destruct (analyze_loop _ _ _ _ _) as [[rs ls]|]; [|done]. simpl in Had.
  destruct (last rs) eqn:Hl; injection Had as <-; simpl in *; [|done].
  by subst rs.
Qed.

Lemma allLanguages_NoDup localeCompare w commits existing tool ad :
  analyzeCommits localeCompare w commits existing tool = Return ad →
  NoDup (ad_allLanguages ad).
Proof.
  intros Had. destruct (last (ad_results ad)) as [final|] eqn:Hlast.
  - rewrite (analyzeCommits_allLanguages _ _ _ _ _ _ _ Had Hlast).
    rewrite sort_Permutation. by apply keys_fold_NoDup, NoDup_nil.
  - destruct (allLanguages_empty _ _ _ _ _ _ Had Hlast) as [-> _].
    apply NoDup_nil_2.
Qed.

Lemma allLanguages_observed localeCompare w commits existing tool ad lang :
  analyzeCommits localeCompare w commits existing tool = Return ad →
  lang ∈ ad_allLanguages ad ↔ observed (ad_results ad) lang.
Proof.
  intros Had. destruct (last (ad_results ad)) as [final|] eqn:Hlast.
  - rewrite (analyzeCommits_allLanguages _ _ _ _ _ _ _ Had Hlast).
    rewrite sort_Permutation. unfold keys_of.
    rewrite keys_fold_elem, elem_of_nil. tauto.
  - destruct (allLanguages_empty _ _ _ _ _ _ Had Hlast) as [-> ->].
    split; [by intros ?%elem_of_nil|].
    intros (r & Hr & _). by apply elem_of_nil in Hr.
Qed.

(** Whatever the comparison of names does, sorting neither loses nor
    doubles a language: [allLanguages] holds each observed language exactly
    once. *)
Theorem allLanguages_complete localeCompare w commits existing tool ad :
  analyzeCommits localeCompare w commits existing tool = Return ad →
  NoDup (ad_allLanguages ad) ∧
  ∀ lang, lang ∈ ad_allLanguages ad ↔ observed (ad_results ad) lang.
Proof.
  intros Had. split.
  - by eapply allLanguages_NoDup.
  - intros lang. by eapply allLanguages_observed.
Qed.

Lemma allLanguages_complete_witness :
  let ad := Sample.returned no_analysis
              (analyzeCommits (λ _ _, 1) Sample.later
                 [Sample.c1; Sample.c2] [] "scc") in
  NoDup (ad_allLanguages ad) ∧
  ∀ lang, lang ∈ ad_allLanguages ad ↔ observed (ad_results ad) lang.
Proof.
  apply (allLanguages_complete (λ _ _, 1) Sample.later
           [Sample.c1; Sample.c2] [] "scc").
  by vm_compute.
Defined.

Section Stable.

Variable localeCompare : string → string → Z.
Hypothesis Hstrict : strict_collation localeCompare.

Lemma ranked_before_antisym final a b :
  ranked_before localeCompare final a b →
  ranked_before localeCompare final b a →
  a = b.
Proof.
  unfold ranked_before. intros [H1|[H1 L1]] [H2|[H2 L2]]; try lra.
  by apply (proj2 Hstrict).
Qed.

(** The order of [allLanguages] depends on the final commit and on which
    languages were observed, not on when each was first seen: two
    analyses with the same final commit and the same observed languages
    return the same [allLanguages]. The collation is assumed to be a total
    order. *)
Theorem ranking_ignores_discovery_order w1 w2 commits1 commits2
    existing1 existing2 tool1 tool2 ad1 ad2 final :
  analyzeCommits localeCompare w1 commits1 existing1 tool1 = Return ad1 →
  analyzeCommits localeCompare w2 commits2 existing2 tool2 = Return ad2 →
  last (ad_results ad1) = Some final →
  last (ad_results ad2) = Some final →
  (∀ lang, observed (ad_results ad1) lang ↔ observed (ad_results ad2) lang) →
  ad_allLanguages ad1 = ad_allLanguages ad2.
Proof.
  intros Had1 Had2 Hl1 Hl2 Hobs.
  pose proof (allLanguages_NoDup _ _ _ _ _ _ Had1) as Hnd1.
  pose proof (allLanguages_NoDup _ _ _ _ _ _ Had2) as Hnd2.
  pose proof (λ lang, allLanguages_observed _ _ _ _ _ _ lang Had1) as Hin1.
  pose proof (λ lang, allLanguages_observed _ _ _ _ _ _ lang Had2) as Hin2.
  assert (ad_allLanguages ad1 ≡ₚ ad_allLanguages ad2) as Hperm.
  { apply NoDup_Permutation; [done..|]. intros lang.
    by rewrite Hin1, Hin2. }
  assert (StronglySorted (ranked_before localeCompare final)
            (ad_allLanguages ad1)) as Hs1.
  { rewrite (analyzeCommits_allLanguages _ _ _ _ _ _ _ Had1 Hl1).
    apply sort_ranked, Hstrict. }
  assert (StronglySorted (ranked_before localeCompare final)
            (ad_allLanguages ad2)) as Hs2.
  { rewrite (analyzeCommits_allLanguages _ _ _ _ _ _ _ Had2 Hl2).
    apply sort_ranked, Hstrict. }
  eapply (StronglySorted_unique_strong
            (ranked_before localeCompare final)); [|done..].
  intros a b _ _. apply ranked_before_antisym.
Qed.

End Stable.

Lemma codeUnitCompare_strict : strict_collation Sample.codeUnitCompare.
Proof.
  split; [apply codeUnitCompare_collation|].
  intros a b. rewrite !codeUnitCompare_le. apply anti_symm, _.
Qed.

Lemma ranking_ignores_discovery_order_witness :
  ad_allLanguages
    (Sample.returned no_analysis
       (analyzeCommits Sample.codeUnitCompare Sample.later
          [Sample.c1; Sample.c2; Sample.c3; Sample.c4; Sample.c5] [] "scc")) =
  ad_allLanguages
    (Sample.returned no_analysis
       (analyzeCommits Sample.codeUnitCompare Sample.later
          [Sample.c4; Sample.c5] [] "scc")).
Proof.
  eapply (ranking_ignores_discovery_order Sample.codeUnitCompare
            codeUnitCompare_strict Sample.later Sample.later
            [Sample.c1; Sample.c2; Sample.c3; Sample.c4; Sample.c5]
            [Sample.c4; Sample.c5] [] [] "scc" "scc");
    [by vm_compute..|].
  intros lang.
  rewrite <- (allLanguages_observed Sample.codeUnitCompare Sample.later
                [Sample.c1; Sample.c2; Sample.c3; Sample.c4; Sample.c5]
                [] "scc" _ lang eq_refl).
  rewrite <- (allLanguages_observed Sample.codeUnitCompare Sample.later
                [Sample.c4; Sample.c5] [] "scc" _ lang eq_refl).
  by vm_compute.
Defined.

(** ** lib/audio.mjs *)

Section Frames.

Variable results : list CommitRecord.
Variable allLanguages : list string.

Lemma frames_from_length prev rest :
  length (frames_from results allLanguages prev rest) = length rest.
Proof.
  revert prev. induction rest as [|c rest IH]; intros prev; simpl; [done|].
  by rewrite IH.
Qed.

Lemma frames_from_lookup prev rest i frame :
  frames_from results allLanguages prev rest !! i = Some frame →
  ∃ commit,
    rest !! i = Some commit ∧
    ∀ metric,
      frame_metric frame metric =
      metric_frame results allLanguages commit
        (match i with O => prev | S j => rest !! j end) metric.
Proof.
  revert prev i. induction rest as [|c rest IH]; intros prev i; [done|].
  destruct i as [|i]; simpl.
  - intros [= <-]. exists c. split; [done|]. by intros [].
  - intros H. destruct (IH (Some c) i H) as (commit & Hc & Hm).
    exists commit. split; [done|]. intros metric. rewrite Hm.
    by destruct i.
Qed.

End Frames.

(** There is one frame for each result, at the same index, and it is
    computed from the commit at that index and the commit before it (none
    for the first). *)
Theorem frames_match_results results allLanguages :
  length (computeAudioData results allLanguages) = length results ∧
  ∀ i frame,
    computeAudioData results allLanguages !! i = Some frame →
    ∃ commit,
      results !! i = Some commit ∧
      ∀ metric,
        frame_metric frame metric =
        metric_frame results allLanguages commit (previous results i) metric.
Proof.
  assert (computeAudioData results allLanguages =
          frames_from results allLanguages None results) as ->
    by by destruct results.
  split; [apply frames_from_length|].
  intros i frame H. destruct (frames_from_lookup _ _ _ _ _ _ H) as (c & Hc & Hm).
  exists c. split; [done|]. intros metric. rewrite Hm. by destruct i.
Qed.

Section Voices.

Variable metric : Metric.t.
Variable commit : CommitRecord.
Variable prevCommit : option CommitRecord.
Variable total : Z.

Lemma voices_from_elem v langs x :
  x ∈ voices_from metric commit prevCommit total v langs ↔
  ∃ i lang, langs !! i = Some lang ∧
            voice metric commit prevCommit total (v + i) lang = Some x.
Proof.
  revert v. induction langs as [|lang langs IH]; intros v; simpl.
  - split; [by intros ?%elem_of_nil|]. by intros (i & l & ? & _).
  - destruct (voice metric commit prevCommit total v lang) as [y|] eqn:Hy.
    + rewrite elem_of_cons, IH. split.
      * intros [->|(i & l & Hl & Hv)].
        -- exists 0%nat, lang. by rewrite Nat.add_0_r.
        -- exists (S i), l. by rewrite Nat.add_succ_r.
      * intros ([|i] & l & Hl & Hv).
        -- left. rewrite Nat.add_0_r in Hv. simpl in Hl. congruence.
        -- right. exists i, l. by rewrite Nat.add_succ_r in Hv.
    + rewrite IH. split.
      * intros (i & l & Hl & Hv). exists (S i), l.
        by rewrite Nat.add_succ_r.
      * intros ([|i] & l & Hl & Hv).
        -- rewrite Nat.add_0_r in Hv. simpl in Hl. congruence.
        -- exists i, l. by rewrite Nat.add_succ_r in Hv.
Qed.

Lemma voice_index v lang x :
  voice metric commit prevCommit total v lang = Some x → v_index x = v.
Proof.
  unfold voice. destruct (Qeq_bool _ 0); [done|]. by intros [= <-].
Qed.

Lemma voices_from_sorted v langs :
  StronglySorted (λ x y, (v_index x < v_index y)%nat)
    (voices_from metric commit prevCommit total v langs) ∧
  Forall (λ x, (v ≤ v_index x < v + length langs)%nat)
    (voices_from metric commit prevCommit total v langs).
Proof.
  revert v. induction langs as [|lang langs IH]; intros v; simpl.
  - split; constructor.
  - destruct (IH (S v)) as [Hs Hb].
    assert (Forall (λ x, (v ≤ v_index x < v + S (length langs))%nat)
              (voices_from metric commit prevCommit total (S v) langs)) as Hb'.
    { eapply Forall_impl; [done|]. simpl. intros x. lia. }
    destruct (voice metric commit prevCommit total v lang) as [y|] eqn:Hy;
      [|done].
    apply voice_index in Hy. split.
    + constructor; [done|]. eapply Forall_impl; [exact Hb|].
      simpl. intros x. lia.
    + constructor; [lia|done].
Qed.

Lemma voices_from_length v langs :
  (length (voices_from metric commit prevCommit total v langs)
   ≤ length langs)%nat.
Proof.
  revert v. induction langs as [|lang langs IH]; intros v; simpl; [done|].
  specialize (IH (S v)).
  destruct (voice metric commit prevCommit total v lang); simpl; lia.
Qed.

End Voices.

Lemma metric_frame_voices results allLanguages commit prevCommit metric :
  activeVoices (metric_frame results allLanguages commit prevCommit metric) =
  voices_from metric commit prevCommit (metric_total metric commit) 0
    (take (Nat.min (length allLanguages) AUDIO_MAX_VOICES) allLanguages).
Proof. unfold metric_frame. by destruct (minMax metric results). Qed.

Lemma metric_frame_intensity results allLanguages commit prevCommit metric :
  masterIntensity (metric_frame results allLanguages commit prevCommit metric) =
  computeMasterIntensity (minMax metric results).1 (minMax metric results).2
    (metric_total metric commit).
Proof. unfold metric_frame. by destruct (minMax metric results). Qed.

(** A voice is stored only for a language with a value other than 0, in a
    commit whose total is positive. *)
Lemma voice_stored metric commit prevCommit total v lang x :
  voice metric commit prevCommit total v lang = Some x →
  0 < total ∧ lang_value metric commit lang ≠ 0 ∧
  x = {| v_index := v;
         v_gain := round2 (inject_Z (lang_value metric commit lang)
                           / inject_Z total);
         v_detune := round1 (computeDetune (bool_decide (is_Some prevCommit))
                               (lang_value metric commit lang)
                               (previous_value metric prevCommit lang)) |}.
Proof.
  unfold voice. fold (previous_value metric prevCommit lang).
  destruct (decide (0 < total)) as [Hpos|Hneg]; [|done].
  destruct (Qeq_bool _ 0) eqn:Hq; [done|]. intros [= <-].
  split; [done|]. split; [|done].
  intros Hz. rewrite Hz in Hq. apply Qeq_bool_neq in Hq. apply Hq.
  unfold Qdiv. by rewrite Qmult_0_l.
Qed.

(** At most 16 voices are stored for a metric, in the order of
    [allLanguages]; the index of each is below 16 and names a language
    whose value in the commit is not 0. *)
Theorem voice_cap results allLanguages commit prevCommit metric :
  let voices :=
    activeVoices (metric_frame results allLanguages commit prevCommit metric) in
  (length voices ≤ 16)%nat ∧
  StronglySorted (λ x y, (v_index x < v_index y)%nat) voices ∧
  Forall (λ x, (v_index x < 16)%nat ∧
               ∃ lang, allLanguages !! v_index x = Some lang ∧
                       lang_value metric commit lang ≠ 0) voices.
Proof.
  intros voices. subst voices. rewrite metric_frame_voices.
  set (n := Nat.min (length allLanguages) AUDIO_MAX_VOICES).
  assert (n ≤ 16)%nat as Hn by (unfold n, AUDIO_MAX_VOICES; lia).
  split; [|split].
  - etrans; [apply voices_from_length|]. rewrite length_take. lia.
  - apply voices_from_sorted.
  - apply Forall_forall. intros x Hx.
    apply voices_from_elem in Hx as (i & lang & Hl & Hv).
    apply lookup_take_Some in Hl as [Hl Hi].
    destruct (voice_stored _ _ _ _ _ _ _ Hv) as (_ & Hval & ->). simpl.
    split; [lia|]. by exists lang.
Qed.

(** A language that has a positive value in a commit and none in the
    commit before, or in the first commit, is stored with the detune 12.5,
    whatever its growth. *)
Theorem debut_detune results allLanguages commit prevCommit metric x lang :
  x ∈ activeVoices (metric_frame results allLanguages commit prevCommit metric) →
  allLanguages !! v_index x = Some lang →
  0 < lang_value metric commit lang →
  previous_value metric prevCommit lang = 0 →
  (v_detune x == 25 # 2)%Q.
Proof.
  rewrite metric_frame_voices. intros Hx Hlang Hval Hprev.
  apply voices_from_elem in Hx as (i & lang' & Hl & Hv).
  apply lookup_take_Some in Hl as [Hl Hi].
  destruct (voice_stored _ _ _ _ _ _ _ Hv) as (_ & _ & ->). simpl in *.
  assert (lang' = lang) as -> by congruence.
  rewrite Hprev. unfold computeDetune.
  rewrite (bool_decide_false (0 < 0)) by lia. rewrite andb_false_r.
  rewrite bool_decide_true by done. by vm_compute.
Qed.

Lemma debut_detune_witness :
  let r4 := commit_record Sample.c4 (runCounter Sample.later "scc" "c4") in
  let r3 := commit_record Sample.c3 (runCounter Sample.later "scc" "c3") in
  let x := {| v_index := 0; v_gain := 33 # 100; v_detune := 125 # 10 |} in
  (v_detune x == 25 # 2)%Q.
Proof.
  intros r4 r3 x.
  apply (debut_detune [r3; r4] ["B"; "A"; "C"] r4 (Some r3) Metric.lines x "B").
  - vm_compute. apply list_elem_of_here.
  - by vm_compute.
  - by vm_compute.
  - by vm_compute.
Defined.

Section MinMax.

Variable metric : Metric.t.

Let step := λ '(min, max) commit,
  let total := metric_total metric commit in
  (JS.Math_min min total, Z.max max total).

(** What the scan leaves in its two accumulators. *)
Lemma minMax_fold results min max :
  let r := foldl step (min, max) results in
  max ≤ r.2 ∧
  (∀ c, c ∈ results → metric_total metric c ≤ r.2) ∧
  (r.2 = max ∨ ∃ c, c ∈ results ∧ metric_total metric c = r.2) ∧
  match r.1 with
  | JS.Fin a' =>
      (∀ a, min = JS.Fin a → a' ≤ a) ∧
      (∀ c, c ∈ results → a' ≤ metric_total metric c) ∧
      (r.1 = min ∨ ∃ c, c ∈ results ∧ metric_total metric c = a')
  | JS.Infinity => results = [] ∧ min = JS.Infinity
  end.
Proof.
  revert min max. induction results as [|c rest IH]; intros min max.
  - simpl. split; [lia|]. split; [by intros ? ?%elem_of_nil|].
    split; [by left|]. destruct min as [a|]; [|done].
    split; [by intros ? [= ->]|]. split; [by intros ? ?%elem_of_nil|by left].
  - change (foldl step (min, max) (c :: rest))
      with (foldl step (JS.Math_min min (metric_total metric c),
                        Z.max max (metric_total metric c)) rest).
    specialize (IH (JS.Math_min min (metric_total metric c))
                   (Z.max max (metric_total metric c))).
    destruct (foldl step _ rest) as [mn' mx']. simpl in *.
    destruct IH as (Hle & Hall & Hatt & Hmin).
    split; [lia|]. split; [|split].
    + intros c' [->|Hc']%elem_of_cons; [lia|]. by apply Hall.
    + destruct Hatt as [->|(c' & Hc' & Ht)].
      * destruct (Z.max_spec max (metric_total metric c)) as [[_ ->]|[_ ->]].
        -- right. exists c. split; [by left|done].
        -- by left.
      * right. exists c'. split; [by right|done].
    + destruct mn' as [a'|]; [|by destruct Hmin as [_ ?]; destruct min].
      destruct Hmin as (Hacc & Hall' & Hatt').
      assert (a' ≤ metric_total metric c) as Hc.
      { destruct min as [a|]; simpl in Hacc.
        - specialize (Hacc _ eq_refl). lia.
        - by specialize (Hacc _ eq_refl). }
      split; [|split].
      * intros a ->. simpl in Hacc. specialize (Hacc _ eq_refl). lia.
      * intros c' [->|Hc']%elem_of_cons; [done|]. by apply Hall'.
      * destruct Hatt' as [Heq|(c' & Hc' & Ht)].
        -- destruct min as [a|]; simpl in Heq; injection Heq as Heq.
           ++ destruct (Z.min_spec a (metric_total metric c))
                as [[_ Hm]|[_ Hm]]; rewrite Hm in Heq.
              ** left. by rewrite Heq.
              ** right. exists c. split; [by left|done].
           ++ right. exists c. split; [by left|done].
        -- right. exists c'. split; [by right|done].
Qed.

(** The range found for a session that is not empty. *)
Lemma minMax_range results :
  results ≠ [] →
  ∃ min max,
    minMax metric results = (JS.Fin min, max) ∧
    0 ≤ max ∧
    (∀ c, c ∈ results → min ≤ metric_total metric c ≤ max) ∧
    (∃ c, c ∈ results ∧ metric_total metric c = min) ∧
    (max = 0 ∨ ∃ c, c ∈ results ∧ metric_total metric c = max).
Proof.
  intros Hne. pose proof (minMax_fold results JS.Infinity 0) as H.
  unfold minMax. fold step. destruct (foldl step _ results) as [mn mx].
  simpl in H. destruct H as (Hle & Hall & Hatt & Hmin).
  destruct mn as [a|]; [|by destruct Hmin].
  destruct Hmin as (_ & Hall' & Hatt').
  exists a, mx. split; [done|]. split; [done|]. split; [|split; [|done]].
  - intros c Hc. split; [by apply Hall'|by apply Hall].
  - by destruct Hatt' as [?|?].
Qed.

End MinMax.

Global Instance round2_proper : Proper (Qeq ==> Qeq) round2.
Proof.
  intros x y Hxy. unfold round2, JS.Math_round. by rewrite Hxy.
Qed.

(** The master intensity at the ends of the range: 1 for a commit whose
    total is the largest of the session, 0 for one whose total is the
    smallest, and 1 throughout when every commit has the same total (a
    single commit among them). Totals are counts, hence not negative. *)
Theorem intensity_extremes results allLanguages commit prevCommit metric :
  commit ∈ results →
  0 ≤ metric_total metric commit →
  let total := metric_total metric in
  let intensity :=
    masterIntensity
      (metric_frame results allLanguages commit prevCommit metric) in
  ((∀ c, c ∈ results → total c = total commit) → intensity = 1%Q) ∧
  ((∀ c, c ∈ results → total c ≤ total commit) →
   (∃ c, c ∈ results ∧ total c < total commit) →
   (intensity == 1)%Q) ∧
  ((∀ c, c ∈ results → total commit ≤ total c) →
   (∃ c, c ∈ results ∧ total commit < total c) →
   (intensity == 0)%Q).
Proof.
  intros Hin Hpos total intensity. subst total intensity.
  rewrite metric_frame_intensity.
  destruct (minMax_range metric results) as (mn & mx & -> & H0 & Hall & Hmin & Hmax).
  { intros ->. by apply elem_of_nil in Hin. }
  simpl. unfold computeMasterIntensity.
  destruct Hmin as (cmin & Hcmin & Hmn).
  split; [|split].
  - intros Hconst. rewrite decide_False; [done|].
    rewrite <- Hmn, (Hconst _ Hcmin).
    destruct Hmax as [->|(cmax & Hcmax & <-)]; [lia|].
    rewrite (Hconst _ Hcmax). lia.
  - intros Hle (c & Hc & Hlt).
    assert (mx = metric_total metric commit) as ->.
    { pose proof (Hall _ Hin).
      destruct Hmax as [->|(cmax & Hcmax & <-)]; [lia|].
      pose proof (Hle _ Hcmax). lia. }
    pose proof (Hall _ Hc).
    rewrite decide_True by lia.
    assert (inject_Z (metric_total metric commit - mn)
            / inject_Z (metric_total metric commit - mn) == 1)%Q as ->.
    { apply Qmult_inv_r. change 0%Q with (inject_Z 0).
      rewrite inject_Z_injective. lia. }
    by vm_compute.
  - intros Hge (c & Hc & Hlt).
    assert (mn = metric_total metric commit) as ->.
    { pose proof (Hall _ Hin). pose proof (Hge _ Hcmin). lia. }
    pose proof (Hall _ Hc).
    rewrite decide_True by lia. rewrite Z.sub_diag.
    assert (inject_Z 0 / inject_Z (mx - metric_total metric commit) == 0)%Q
      as -> by (unfold Qdiv; apply Qmult_0_l).
    by vm_compute.
Qed.

Lemma intensity_extremes_witness :
  let r4 := commit_record Sample.c4 (runCounter Sample.later "scc" "c4") in
  let r5 := commit_record Sample.c5 (runCounter Sample.later "scc" "c5") in
  (masterIntensity
     (metric_frame [r4; r5] ["B"; "A"; "C"] r5 (Some r4) Metric.lines) == 1)%Q ∧
  (masterIntensity
     (metric_frame [r4; r5] ["B"; "A"; "C"] r4 None Metric.lines) == 0)%Q ∧
  masterIntensity
    (metric_frame [r4] ["B"; "A"; "C"] r4 None Metric.files) = 1%Q.
Proof.
  intros r4 r5. split; [|split].
  - apply (intensity_extremes [r4; r5] ["B"; "A"; "C"] r5 (Some r4) Metric.lines).
    + apply list_elem_of_further, list_elem_of_here.
    + by vm_compute.
    + intros c Hc. decompose_list_elem_of; subst c; by vm_compute.
    + exists r4. split; [apply list_elem_of_here|by vm_compute].
  - apply (intensity_extremes [r4; r5] ["B"; "A"; "C"] r4 None Metric.lines).
    + apply list_elem_of_here.
    + by vm_compute.
    + intros c Hc. decompose_list_elem_of; subst c; by vm_compute.
    + exists r5. split; [apply list_elem_of_further, list_elem_of_here|by vm_compute].
  - apply (intensity_extremes [r4] ["B"; "A"; "C"] r4 None Metric.files).
    + apply list_elem_of_here.
    + by vm_compute.
    + intros c Hc. decompose_list_elem_of. by subst c.
Defined.

Lemma metric_total_fold metric langs a :
  foldl (λ total kv, total + metric_value metric kv.2) a langs =
  a + sum_over (metric_value metric) langs.
Proof.
  revert a. induction langs as [|kv langs IH]; intros a; simpl; [lia|].
  rewrite IH. lia.
Qed.

Lemma metric_total_sum metric commit :
  metric_total metric commit = sum_over (metric_value metric) (languages commit).
Proof. unfold metric_total. by rewrite metric_total_fold. Qed.

Lemma without_bytes_total r :
  without_bytes r → metric_total Metric.bytes r = 0.
Proof.
  rewrite metric_total_sum. unfold without_bytes.
  induction 1 as [|kv langs Hkv _ IH]; simpl; [done|].
  by rewrite Hkv, IH.
Qed.

(** Nothing is stored for a metric whose total is not positive. *)
Lemma voices_from_silent metric commit prevCommit total v langs :
  total ≤ 0 → voices_from metric commit prevCommit total v langs = [].
Proof.
  intros Ht. revert v. induction langs as [|lang langs IH]; intros v; [done|].
  simpl. rewrite IH. unfold voice. by rewrite decide_False by lia.
Qed.

Lemma silent_frame results allLanguages commit prevCommit metric :
  commit ∈ results →
  (∀ c, c ∈ results → metric_total metric c = 0) →
  metric_frame results allLanguages commit prevCommit metric =
  {| masterIntensity := 1; activeVoices := [] |}.
Proof.
  intros Hin Hzero.
  destruct (minMax_range metric results)
    as (mn & mx & Hmm & H0 & Hall & Hmin & Hmax).
  { intros ->. by apply elem_of_nil in Hin. }
  unfold metric_frame. rewrite Hmm.
  rewrite voices_from_silent by (rewrite (Hzero _ Hin); lia).
  unfold computeMasterIntensity. rewrite decide_False; [done|].
  destruct Hmin as (c & Hc & <-). rewrite (Hzero _ Hc).
  destruct Hmax as [->|(c' & Hc' & <-)]; [lia|]. rewrite (Hzero _ Hc'). lia.
Qed.

(** Under cloc, which counts no bytes, the bytes channel of every frame is
    silent: the master intensity is 1 and no voice is stored. *)
Theorem cloc_bytes_channel_silent localeCompare w commits ad frame :
  analyzeCommits localeCompare w commits [] "cloc" = Return ad →
  frame ∈ computeAudioData (ad_results ad) (ad_allLanguages ad) →
  Frame.bytes frame = {| masterIntensity := 1; activeVoices := [] |}.
Proof.
  intros Had Hframe.
  apply list_elem_of_lookup in Hframe as [i Hi].
  assert (computeAudioData (ad_results ad) (ad_allLanguages ad) =
          frames_from (ad_results ad) (ad_allLanguages ad) None (ad_results ad))
    as Heq by by destruct (ad_results ad).
  rewrite Heq in Hi.
  destruct (frames_from_lookup _ _ _ _ _ _ Hi) as (c & Hc & Hm).
  specialize (Hm Metric.bytes). simpl in Hm. rewrite Hm.
  apply silent_frame; [by eapply list_elem_of_lookup_2|].
  intros c' Hc'. apply without_bytes_total.
  rewrite (analyzeCommits_results _ _ _ _ _ _ Had) in Hc'. simpl in Hc'.
  apply list_elem_of_fmap in Hc' as (cm & -> & _).
  unfold without_bytes. rewrite commit_record_languages.
  eapply Forall_impl; [apply runCloc_fields_absent|]. by intros kv (_ & ? & _).
Qed.

Lemma cloc_bytes_channel_silent_witness :
  Forall (λ frame,
            Frame.bytes frame = {| masterIntensity := 1; activeVoices := [] |})
    (computeAudioData
       (ad_results (Sample.returned no_analysis
                      (analyzeCommits Sample.codeUnitCompare Sample.earlier
                         [Sample.c1; Sample.c2] [] "cloc")))
       (ad_allLanguages (Sample.returned no_analysis
                           (analyzeCommits Sample.codeUnitCompare Sample.earlier
                              [Sample.c1; Sample.c2] [] "cloc")))).
Proof.
  apply Forall_forall. intros frame.
  apply (cloc_bytes_channel_silent Sample.codeUnitCompare Sample.earlier
           [Sample.c1; Sample.c2]).
  by vm_compute.
Defined.

Lemma sum_over_not_negative X langs :
  Forall (λ kv, 0 ≤ X kv.2) langs → 0 ≤ sum_over X langs.
Proof. induction 1 as [|kv langs Hkv _ IH]; simpl; lia. Qed.

Lemma sum_over_elem X langs kv :
  Forall (λ kv, 0 ≤ X kv.2) langs → kv ∈ langs → X kv.2 ≤ sum_over X langs.
Proof.
  induction 1 as [|kv' langs Hkv Hall IH]; [by intros ?%elem_of_nil|].
  pose proof (sum_over_not_negative X langs Hall).
  intros [->|Hin]%elem_of_cons; simpl; [lia|]. specialize (IH Hin). lia.
Qed.

Lemma lang_value_within metric commit lang :
  counts_not_negative metric commit →
  0 ≤ lang_value metric commit lang ≤ metric_total metric commit.
Proof.
  intros Hnn. rewrite metric_total_sum. unfold lang_value.
  pose proof (sum_over_not_negative _ _ Hnn).
  destruct (JS.obj_get (languages commit) lang) as [stats|] eqn:Hget;
    simpl; [|lia].
  apply obj_get_elem in Hget.
  pose proof (sum_over_elem (metric_value metric) _ _ Hnn Hget) as Hle.
  unfold counts_not_negative in Hnn. rewrite Forall_forall in Hnn.
  specialize (Hnn _ Hget). simpl in *. lia.
Qed.

(** What is stored stays in range: the master intensity between 0 and 1,
    every gain between 0 and 1 and every detune between -25 and 25, for a
    commit whose counts are not negative. *)
Theorem stored_values_in_range results allLanguages commit prevCommit metric :
  commit ∈ results →
  counts_not_negative metric commit →
  let frame := metric_frame results allLanguages commit prevCommit metric in
  (0 <= masterIntensity frame ∧ masterIntensity frame <= 1)%Q ∧
  Forall (λ x, (0 <= v_gain x ∧ v_gain x <= 1)%Q ∧
               (- (25) <= v_detune x ∧ v_detune x <= 25)%Q)
    (activeVoices frame).
Proof.
  intros Hin Hnn frame. subst frame. split.
  - rewrite metric_frame_intensity.
    destruct (minMax_range metric results) as (mn & mx & -> & _ & Hall & _).
    { intros ->. by apply elem_of_nil in Hin. }
    simpl. unfold computeMasterIntensity. specialize (Hall _ Hin).
    case_decide; [|split; lra].
    apply round2_unit; apply quotient_unit; lia.
  - rewrite metric_frame_voices. apply Forall_forall. intros x Hx.
    apply voices_from_elem in Hx as (i & lang & _ & Hv).
    destruct (voice_stored _ _ _ _ _ _ _ Hv) as (Hpos & _ & ->). simpl.
    pose proof (lang_value_within metric commit lang Hnn) as Hval.
    split.
    + apply round2_unit; apply quotient_unit; lia.
    + apply round1_detune; apply computeDetune_bounds.
Qed.

Lemma stored_values_in_range_witness :
  let r4 := commit_record Sample.c4 (runCounter Sample.later "scc" "c4") in
  let r5 := commit_record Sample.c5 (runCounter Sample.later "scc" "c5") in
  let frame := metric_frame [r4; r5] ["B"; "A"; "C"] r5 (Some r4) Metric.bytes in
  (0 <= masterIntensity frame ∧ masterIntensity frame <= 1)%Q ∧
  Forall (λ x, (0 <= v_gain x ∧ v_gain x <= 1)%Q ∧
               (- (25) <= v_detune x ∧ v_detune x <= 25)%Q)
    (activeVoices frame).
Proof.
  intros r4 r5.
  apply (stored_values_in_range [r4; r5] ["B"; "A"; "C"] r5 (Some r4) Metric.bytes).
  - apply list_elem_of_further, list_elem_of_here.
  - by apply (bool_decide_unpack _); vm_compute.
Defined.

(** The zero test is made before rounding: a language with a positive
    value but less than half a percent of the total is stored, with the
    gain 0. *)
Theorem small_share_stored_as_zero results allLanguages commit prevCommit
    metric lang i :
  allLanguages !! i = Some lang →
  (i < 16)%nat →
  0 < lang_value metric commit lang →
  200 * lang_value metric commit lang < metric_total metric commit →
  ∃ x, x ∈ activeVoices
             (metric_frame results allLanguages commit prevCommit metric) ∧
       v_index x = i ∧ (v_gain x == 0)%Q.
Proof.
  intros Hlang Hi Hval Hsmall. rewrite metric_frame_voices.
  set (total := metric_total metric commit) in *.
  assert (0 < total) as Hpos by lia.
  assert (0 < inject_Z total)%Q as Hpos'
    by (change 0%Q with (inject_Z 0); by rewrite <- Zlt_Qlt).
  set (g := (inject_Z (lang_value metric commit lang) / inject_Z total)%Q).
  assert (0 < g ∧ g < 1 # 200)%Q as [Hg0 Hg1].
  { subst g. split.
    - apply Qlt_shift_div_l; [done|]. rewrite Qmult_0_l.
      change 0%Q with (inject_Z 0). by rewrite <- Zlt_Qlt.
    - apply Qlt_shift_div_r; [done|].
      assert (inject_Z (200 * lang_value metric commit lang) < inject_Z total)%Q
        as H by by rewrite <- Zlt_Qlt.
      rewrite inject_Z_mult in H. change (inject_Z 200) with 200%Q in H. lra. }
  assert (voice metric commit prevCommit total i lang =
          Some {| v_index := i;
                  v_gain := round2 g;
                  v_detune := round1 (computeDetune
                                        (bool_decide (is_Some prevCommit))
                                        (lang_value metric commit lang)
                                        (previous_value metric prevCommit lang)) |})
    as Hvoice.
  { unfold voice. fold (previous_value metric prevCommit lang).
    rewrite decide_True by done. fold g.
    destruct (Qeq_bool g 0) eqn:Hq; [|done].
    apply Qeq_bool_iff in Hq. lra. }
  eexists {| v_index := i; v_gain := round2 g; v_detune := _ |}.
  split; [|split; [reflexivity|]].
  - apply voices_from_elem. exists i, lang. split; [|exact Hvoice].
    apply lookup_take_Some. split; [done|].
    apply lookup_lt_Some in Hlang. unfold AUDIO_MAX_VOICES. lia.
  - simpl. unfold round2.
    destruct (Math_round_close (g * 100)) as [Hlo Hhi].
    assert (JS.Math_round (g * 100) = 0) as ->.
    { apply Z.le_antisymm.
      - apply Z.lt_succ_r. change (Z.succ 0) with 1. rewrite Zlt_Qlt.
        change (inject_Z 1) with 1%Q. lra.
      - apply Z.lt_pred_le. change (Z.pred 0) with (-1). rewrite Zlt_Qlt.
        change (inject_Z (-1)) with (- (1))%Q. lra. }
    by vm_compute.
Qed.

Lemma small_share_stored_as_zero_witness :
  ∃ x, x ∈ activeVoices
             (metric_frame [Tiny.record] ["A"; "B"] Tiny.record None Metric.lines) ∧
       v_index x = 1%nat ∧ (v_gain x == 0)%Q.
Proof.
  apply (small_share_stored_as_zero [Tiny.record] ["A"; "B"] Tiny.record None
           Metric.lines "B" 1); first [lia | by vm_compute].
Defined.

(** ** lib/data.mjs *)

Lemma loadExistingData_Some fs schemaVersion data :
  loadExistingData fs schemaVersion = Some data →
  data_json fs = Some (Json data) ∧
  schema_version data = Some schemaVersion ∧
  schemaVersion ≠ "".
Proof.
  unfold loadExistingData.
  destruct (data_json fs) as [[|d]|]; [done| |done].
  destruct (schema_version d) as [[|a v]|] eqn:Hv; simpl; [done| |done].
  case_decide as Hne; [done|]. intros [= ->].
  by subst schemaVersion.
Qed.

Lemma loadExistingData_loads fs schemaVersion data :
  data_json fs = Some (Json data) →
  schema_version data = Some schemaVersion →
  schemaVersion ≠ "" →
  loadExistingData fs schemaVersion = Some data.
Proof.
  unfold loadExistingData. intros -> Hv Hne. rewrite Hv.
  destruct schemaVersion as [|a v]; [done|]. simpl.
  by rewrite decide_False by auto.
Qed.

(** A session is loaded exactly when [data.json] parses and its schema
    version is the expected one; a file written under an empty expected
    version never loads. *)
Theorem loadExistingData_schema fs schemaVersion data :
  loadExistingData fs schemaVersion = Some data ↔
  data_json fs = Some (Json data) ∧
  schema_version data = Some schemaVersion ∧
  schemaVersion ≠ "".
Proof.
  split.
  - apply loadExistingData_Some.
  - intros (? & ? & ?). by apply loadExistingData_loads.
Qed.



(** ** analyze.mjs *)

Section OtherRuns.

Variable localeCompare : string → string → Z.
Variable ejs_render : Renderer.

(** With [--force-full] the file system is not consulted: the run is the
    run without a session, whatever [data.json] holds. *)
Theorem force_full_ignores_session w cfg fs :
  forceFull cfg = true →
  main localeCompare ejs_render w cfg fs =
  full_run localeCompare ejs_render w cfg.
Proof.
  intros H. apply main_no_session. unfold compatible. by rewrite H.
Qed.

(** A session whose last commit is no longer in the repository is set
    aside: the whole history is analyzed from nothing. *)
Theorem lost_resume_commit_restarts w cfg fs data m h :
  compatible cfg fs = Some data →
  metadata data = Some m →
  Metadata.last_commit_hash m = Some h →
  h ≠ "" →
  commitExists w h = false →
  main localeCompare ejs_render w cfg fs =
  full_run localeCompare ejs_render w cfg.
Proof.
  intros Hc Hm Hh Hne Hex. unfold main, full_run, main_try.
  assert (resume_hash (Some data) = Return (Some h)) as Hresume.
  { unfold resume_hash. rewrite Hm, Hh. by destruct h. }
  rewrite Hc. unfold found_existing. rewrite Hm, Hh.
  assert (lift (if jsonProgress cfg then Return () else Return ()) =
          lift (Return ())) as -> by by destruct (jsonProgress cfg).
  io_rewrite.
  destruct (truthy (localRepoPath cfg)).
  - destruct (git_worktree_add w); io_rewrite; [|done].
    rewrite Hresume. io_rewrite. rewrite Hex. by io_simpl.
  - io_rewrite. destruct (cloneRepo w) as [[]|e]; io_rewrite; [|done].
    rewrite Hresume. io_rewrite. rewrite Hex. by io_simpl.
Qed.

(** When nothing was committed since the session was written, the run
    ends as up to date and writes neither file. *)
Theorem nothing_new_writes_nothing w cfg fs data m h :
  compatible cfg fs = Some data →
  metadata data = Some m →
  Metadata.last_commit_hash m = Some h →
  h ≠ "" →
  commitExists w h = true →
  repo_ready w cfg →
  getCommitHistory w "main" (Some h) = Return [] →
  main localeCompare ejs_render w cfg fs = mkIO [] (Return UpToDate).
Proof.
  unfold repo_ready, main, main_try.
  intros Hc Hm Hh Hne Hex Hready Hlog.
  assert (resume_hash (Some data) = Return (Some h)) as Hresume.
  { unfold resume_hash. rewrite Hm, Hh. by destruct h. }
  rewrite Hc. unfold found_existing. rewrite Hm, Hh.
  assert (lift (if jsonProgress cfg then Return () else Return ()) =
          lift (Return ())) as -> by by destruct (jsonProgress cfg).
  io_rewrite.
  destruct (truthy (localRepoPath cfg)).
  - rewrite Hready. io_rewrite. rewrite Hresume. io_rewrite.
    rewrite Hex, Hresume. io_rewrite. rewrite Hlog. by io_rewrite.
  - unfold cloneRepo. rewrite Hready. io_rewrite. rewrite Hresume. io_rewrite.
    rewrite Hex, Hresume. io_rewrite. rewrite Hlog. by io_rewrite.
Qed.

(** A session written by a run that found no commit has no resume
    pointer. The next run for the same repository and tool reads it: without
    [--json-progress] it throws a [TypeError] while printing the banner,
    before the walk, and writes nothing; with [--json-progress] it analyzes
    the whole history. *)
Theorem rerun_after_empty_session w w' cfg fs ad :
  forceFull cfg = false →
  ad_results ad = [] →
  data_json fs = Some (Json (session_data w cfg ad)) →
  (jsonProgress cfg = false →
   main localeCompare ejs_render w' cfg fs = mkIO [] (Throw TypeError)) ∧
  (jsonProgress cfg = true →
   main localeCompare ejs_render w' cfg fs =
   full_run localeCompare ejs_render w' cfg).
Proof.
  intros Hforce Hres Hfs.
  assert (compatible cfg fs = Some (session_data w cfg ad)) as Hc.
  { apply own_session_compatible; [done..|]. by rewrite Hres. }
  assert (found_existing cfg (Some (session_data w cfg ad)) =
          if jsonProgress cfg then Return () else Throw TypeError) as Hbanner.
  { unfold found_existing. simpl. by rewrite Hres. }
  assert (resume_hash (Some (session_data w cfg ad)) = Return None) as Hresume.
  { unfold resume_hash. simpl. by rewrite Hres. }
  assert (∀ commits,
            analyze_and_save localeCompare ejs_render w' cfg
              (Some (session_data w cfg ad)) commits =
            analyze_and_save localeCompare ejs_render w' cfg None commits)
    as Hsame.
  { intros commits. unfold analyze_and_save. simpl. by rewrite Hres. }
  unfold main, full_run, main_try. rewrite Hc, Hbanner. split.
  - by intros ->.
  - intros ->. io_rewrite.
    destruct (truthy (localRepoPath cfg)).
    + destruct (git_worktree_add w'); io_rewrite; [|done].
      rewrite Hresume. io_rewrite. rewrite Hresume. io_rewrite.
      destruct (getCommitHistory w' "main" None) as [commits|e];
        io_rewrite; [|done].
      apply Hsame.
    + destruct (cloneRepo w') as [[]|e]; io_rewrite; [|done].
      rewrite Hresume. io_rewrite. rewrite Hresume. io_rewrite.
      destruct (getCommitHistory w' "main" None) as [commits|e];
        io_rewrite; [|done].
      apply Hsame.
Qed.

End OtherRuns.

Lemma force_full_ignores_session_witness :
  main Sample.codeUnitCompare Sample.render Sample.later Forced.cfg
    Failing.earlier_files =
  full_run Sample.codeUnitCompare Sample.render Sample.later Forced.cfg.
Proof.
  by apply (force_full_ignores_session Sample.codeUnitCompare Sample.render
              Sample.later Forced.cfg Failing.earlier_files).
Defined.

Lemma lost_resume_commit_restarts_witness :
  main Sample.codeUnitCompare Sample.render Empty.world Sample.cfg
    Failing.earlier_files =
  full_run Sample.codeUnitCompare Sample.render Empty.world Sample.cfg.
Proof.
  eapply (lost_resume_commit_restarts Sample.codeUnitCompare Sample.render
            Empty.world Sample.cfg Failing.earlier_files _ _ "c3").
  - vm_compute. reflexivity.
  - reflexivity.
  - reflexivity.
  - done.
  - reflexivity.
Defined.

Lemma nothing_new_writes_nothing_witness :
  main Sample.codeUnitCompare Sample.render Sample.earlier Sample.cfg
    Failing.earlier_files = mkIO [] (Return UpToDate).
Proof.
  eapply (nothing_new_writes_nothing Sample.codeUnitCompare Sample.render
            Sample.earlier Sample.cfg Failing.earlier_files _ _ "c3").
  - vm_compute. reflexivity.
  - reflexivity.
  - reflexivity.
  - done.
  - by vm_compute.
  - by vm_compute.
  - by vm_compute.
Defined.

Lemma rerun_after_empty_session_witness :
  main Sample.codeUnitCompare Sample.render Sample.later Sample.cfg
    EmptySession.files = mkIO [] (Throw TypeError) ∧
  main Sample.codeUnitCompare Sample.render Sample.later EmptySession.quiet
    EmptySession.files =
  full_run Sample.codeUnitCompare Sample.render Sample.later EmptySession.quiet.
Proof.
  split.
  - apply (rerun_after_empty_session Sample.codeUnitCompare Sample.render
             Empty.world Sample.later Sample.cfg EmptySession.files
             EmptySession.analysis); by vm_compute.
  - apply (rerun_after_empty_session Sample.codeUnitCompare Sample.render
             Empty.world Sample.later EmptySession.quiet EmptySession.files
             EmptySession.analysis); by vm_compute.
Defined.

(** ** lib/progress.mjs *)

Section Spread.




End Spread.



(** The progress reported while the commits are analyzed starts at 15,
    never goes back from one commit to a later one, and stays below 85,
    the value reported once the analysis is complete. *)
Theorem commitProgress_range i j totalCommits :
  0 ≤ i → i ≤ j → j < totalCommits →
  15 ≤ commitProgress i totalCommits ∧
  commitProgress i totalCommits ≤ commitProgress j totalCommits ∧
  commitProgress j totalCommits ≤ 84.
Proof.
  intros Hi Hij Hj. unfold commitProgress.
  assert (0 < inject_Z totalCommits)%Q as Hn
    by (change 0%Q with (inject_Z 0); rewrite <- Zlt_Qlt; lia).
  assert (0 <= inject_Z i / inject_Z totalCommits)%Q as H0.
  { apply Qle_shift_div_l; [done|]. rewrite Qmult_0_l.
    change 0%Q with (inject_Z 0). rewrite <- Zle_Qle. lia. }
  assert (inject_Z i / inject_Z totalCommits
          <= inject_Z j / inject_Z totalCommits)%Q as Hmono.
  { unfold Qdiv. apply Qmult_le_compat_r.
    - rewrite <- Zle_Qle. lia.
    - apply Qlt_le_weak. by apply Qinv_lt_0_compat. }
  assert (inject_Z j / inject_Z totalCommits < 1)%Q as H1.
  { apply Qlt_shift_div_r; [done|]. rewrite Qmult_1_l.
    rewrite <- Zlt_Qlt. lia. }
  assert (0 ≤ Qfloor (inject_Z i / inject_Z totalCommits * 70)) as Hlo.
  { change 0 with (Qfloor 0). apply Qfloor_resp_le. lra. }
  assert (Qfloor (inject_Z i / inject_Z totalCommits * 70)
          ≤ Qfloor (inject_Z j / inject_Z totalCommits * 70)) as Hmid
    by (apply Qfloor_resp_le; lra).
  assert (Qfloor (inject_Z j / inject_Z totalCommits * 70) < 70) as Hhi.
  { rewrite Zlt_Qlt.
    pose proof (Qfloor_le (inject_Z j / inject_Z totalCommits * 70)).
    change (inject_Z 70) with 70%Q. lra. }
  lia.
Qed.

Lemma commitProgress_range_witness :
  15 ≤ commitProgress 3 10 ∧
  commitProgress 3 10 ≤ commitProgress 9 10 ∧
  commitProgress 9 10 ≤ 84.
Proof. apply (commitProgress_range 3 9 10); lia. Defined.

(** ** lib/html.mjs *)

Section Replace.

Lemma replace_unit_elem u by_ s c :
  c ∈ replace_unit u by_ s ↔
  (c ∈ by_ ∧ u ∈ s) ∨ (c ∈ s ∧ c ≠ u).
Proof.
  unfold replace_unit. rewrite list_elem_of_bind. split.
  - intros (x & Hc & Hx). case_decide as Hxu.
    + subst x. by left.
    + apply list_elem_of_singleton in Hc as ->. by right.
  - intros [[Hc Hu]|[Hc Hne]].
    + exists u. by rewrite decide_True.
    + exists c. rewrite decide_False by done. split; [|done].
      by apply list_elem_of_singleton.
Qed.

Lemma replace_unit_absent u by_ s : u ∉ s → replace_unit u by_ s = s.
Proof.
  unfold replace_unit. induction s as [|c s IH]; intros H; [done|].
  apply not_elem_of_cons in H as [Hne H].
  change ((c :: s) ≫= λ c, if decide (c = u) then by_ else [c])
    with ((if decide (c = u) then by_ else [c])
          ++ (s ≫= λ c, if decide (c = u) then by_ else [c])).
  rewrite IH by done. by rewrite decide_False by auto.
Qed.

Lemma replace_unit_removes u by_ s : u ∉ by_ → u ∉ replace_unit u by_ s.
Proof. rewrite replace_unit_elem. naive_solver. Qed.

Lemma replace_unit_keeps_out v u by_ s :
  v ∉ by_ → v ∉ s → v ∉ replace_unit u by_ s.
Proof. rewrite replace_unit_elem. naive_solver. Qed.

End Replace.

(** What is embedded in the page holds no [<] and neither of the two line
    separators U+2028 and U+2029, whatever is serialized; a serialization
    without them is embedded as it is. *)
Theorem serializeForHtml_safe {V} (JSON_stringify : V → CodeUnits) value :
  let out := serializeForHtml JSON_stringify value in
  (less_than ∉ out ∧ line_separator ∉ out ∧ paragraph_separator ∉ out) ∧
  (less_than ∉ JSON_stringify value →
   line_separator ∉ JSON_stringify value →
   paragraph_separator ∉ JSON_stringify value →
   out = JSON_stringify value).
Proof.
  intros out. subst out.
  unfold serializeForHtml, less_than, line_separator, paragraph_separator.
  assert (∀ v d1 d2 d3 d4 : N,
            bool_decide (v ∉ escape d1 d2 d3 d4) = true →
            v ∉ escape d1 d2 d3 d4) as Hesc
    by (intros; by eapply bool_decide_eq_true_1).
  split.
  - split; [|split].
    + apply replace_unit_keeps_out; [by apply Hesc|].
      apply replace_unit_keeps_out; [by apply Hesc|].
      apply replace_unit_removes. by apply Hesc.
    + apply replace_unit_keeps_out; [by apply Hesc|].
      apply replace_unit_removes. by apply Hesc.
    + apply replace_unit_removes. by apply Hesc.
  - intros H1 H2 H3.
    rewrite (replace_unit_absent 60) by done.
    rewrite (replace_unit_absent 8232) by done.
    by rewrite (replace_unit_absent 8233) by done.
Qed.

Lemma serializeForHtml_safe_witness :
  serializeForHtml (λ s : CodeUnits, s) [91; 34; 97; 34; 93]%N =
  [91; 34; 97; 34; 93]%N.
Proof.
  apply (serializeForHtml_safe (λ s : CodeUnits, s) [91; 34; 97; 34; 93]%N);
    intros H; by decompose_list_elem_of.
Defined.

(** ** lib/tracing.mjs *)

Lemma test_hex_no_dash n s : test_hex n s = true → JS.includes "-" s = false.
Proof.
  unfold test_hex. intros [H _]%andb_true_iff.
  induction s as [|a s IH]; [done|].
  simpl in H. apply andb_true_iff in H as [Ha H].
  rewrite includes_char_cons, IH by done.
  rewrite bool_decide_false; [done|]. by intros <-.
Qed.

Lemma truthy_Some s : s ≠ "" → truthy (Some s) = Some s.
Proof. by destruct s. Qed.

Lemma truthy_Some_inv o s : truthy o = Some s → o = Some s.
Proof. destruct o as [[|??]|]; simpl; congruence. Qed.

(** Whatever [parseTraceParent] accepts is a header
    [00-traceId-spanId-flags] whose trace id has 32 and whose span id has 16
    lower-case hexadecimal digits, neither all zeros; the trace flags are the
    last field read in base 16. *)
Theorem parseTraceParent_sound traceparent r :
  parseTraceParent traceparent = Some r →
  ∃ flags,
    traceparent =
      Some (trace_parent (TraceParent.traceId r) (TraceParent.spanId r) flags) ∧
    test_hex 32 (TraceParent.traceId r) = true ∧
    TraceParent.traceId r ≠ zero_trace_id ∧
    test_hex 16 (TraceParent.spanId r) = true ∧
    TraceParent.spanId r ≠ zero_span_id ∧
    TraceParent.traceFlags r = parseInt16 flags.
Proof.
  unfold parseTraceParent.
  destruct (truthy traceparent) as [s|] eqn:Hs; [|done].
  apply truthy_Some_inv in Hs as ->.
  pose proof (join_split "-" s) as Hjoin.
  destruct (JS.split "-" s) as [|version [|traceId [|spanId [|flags [|??]]]]];
    try done.
  case_bool_decide as Hv; [done|]. subst version.
  destruct (test_hex 32 traceId) eqn:Ht; [|done].
  case_bool_decide as Htz; [done|].
  destruct (test_hex 16 spanId) eqn:Hsp; [|done].
  case_bool_decide as Hsz; [done|]. cbn [negb orb].
  intros [= <-]. cbn [TraceParent.traceId TraceParent.spanId TraceParent.traceFlags].
  exists flags. by rewrite <- Hjoin.
Qed.

Lemma parseTraceParent_sound_witness :
  ∃ flags,
    Some "00-0af7651916cd43dd8448eb211c80319c-b7ad6b7169203331-01" =
      Some (trace_parent "0af7651916cd43dd8448eb211c80319c" "b7ad6b7169203331" flags) ∧
    test_hex 32 "0af7651916cd43dd8448eb211c80319c" = true ∧
    "0af7651916cd43dd8448eb211c80319c" ≠ zero_trace_id ∧
    test_hex 16 "b7ad6b7169203331" = true ∧
    "b7ad6b7169203331" ≠ zero_span_id ∧
    Some 1 = parseInt16 flags.
Proof.
  apply (parseTraceParent_sound
           (Some "00-0af7651916cd43dd8448eb211c80319c-b7ad6b7169203331-01")
           {| TraceParent.traceId := "0af7651916cd43dd8448eb211c80319c";
              TraceParent.spanId := "b7ad6b7169203331";
              TraceParent.traceFlags := Some 1 |}).
  by vm_compute.
Defined.

(** Every header [00-traceId-spanId-flags] with such a trace id and span id is
    accepted, whatever the flags are: they are not checked, and flags that
    do not start with a hexadecimal digit leave [traceFlags] not a number. *)
Theorem parseTraceParent_complete traceId spanId flags :
  test_hex 32 traceId = true → traceId ≠ zero_trace_id →
  test_hex 16 spanId = true → spanId ≠ zero_span_id →
  JS.includes "-" flags = false →
  parseTraceParent (Some (trace_parent traceId spanId flags)) =
  Some {| TraceParent.traceId := traceId;
          TraceParent.spanId := spanId;
          TraceParent.traceFlags := parseInt16 flags |}.
Proof.
  intros Ht Htz Hs Hsz Hf.
  unfold parseTraceParent, trace_parent.
  rewrite truthy_Some by done. unfold JS.split.
  change ("00" +:+ "-" +:+ traceId +:+ "-" +:+ spanId +:+ "-" +:+ flags)
    with ("00" +:+ String "-" (traceId +:+ String "-"
                                 (spanId +:+ String "-" flags))).
  rewrite (split_go_first "-" "" "00") by done.
  rewrite (split_go_first "-" "" traceId) by by eapply test_hex_no_dash.
  rewrite (split_go_first "-" "" spanId) by by eapply test_hex_no_dash.
  rewrite (split_go_free "-" "" flags) by done.
  change (String.rev "") with "".
  change ("" +:+ "00") with "00".
  change ("" +:+ traceId) with traceId.
  change ("" +:+ spanId) with spanId.
  change ("" +:+ flags) with flags.
  cbv beta iota.
  change (bool_decide ("00" ≠ "00")) with false. cbv beta iota.
  rewrite Ht, Hs. cbn [negb orb].
  rewrite (bool_decide_false (traceId = _)) by done.
  by rewrite (bool_decide_false (spanId = _)) by done.
Qed.

Lemma parseTraceParent_complete_witness :
  parseTraceParent
    (Some (trace_parent "0af7651916cd43dd8448eb211c80319c" "b7ad6b7169203331" "zz")) =
  Some {| TraceParent.traceId := "0af7651916cd43dd8448eb211c80319c";
          TraceParent.spanId := "b7ad6b7169203331";
          TraceParent.traceFlags := None |}.
Proof.
  apply (parseTraceParent_complete "0af7651916cd43dd8448eb211c80319c"
           "b7ad6b7169203331" "zz"); by vm_compute.
Defined.
